(** * browser.py: address parsing, navigation interception and view state

    A shallow embedding of [src/browser.py]: the two module functions
    [validate_input] and [parse_input], the navigation hook
    [CustomWebEnginePage.acceptNavigationRequest], the handlers of
    [BrowserTab] ([sync_virtual_url], [check_load_success],
    [check_title_for_404], [show_custom_404]) and [MiniBrowser.load_page].

    Python [str] values are modelled as lists of characters; a character is
    a code point in the range 0..255.  The rendering engine (Qt) is an
    external collaborator: only the calls the handlers make on it are
    modelled, as updates of a per-tab record. *)

From Stdlib Require Import List Ascii String Bool Arith ZArith Lia.
Import ListNotations.

Set Implicit Arguments.

(** ** Python string operations used by the source *)

Definition str := list ascii.

Definition lit (s : string) : str := list_ascii_of_string s.

Definition LF : ascii := "010"%char.

Definition str_eqb (a b : str) : bool :=
  if list_eq_dec ascii_dec a b then true else false.

Module PyStr.

(** [s.startswith(p)] *)
Fixpoint startswith (p s : str) : bool :=
  match p, s with
  | [], _ => true
  | _ :: _, [] => false
  | a :: p', b :: s' => Ascii.eqb a b && startswith p' s'
  end.

(** the text after a leading [p], when [s] starts with [p] *)
Fixpoint strip_prefix (p s : str) : option str :=
  match p, s with
  | [], _ => Some s
  | _ :: _, [] => None
  | a :: p', b :: s' => if Ascii.eqb a b then strip_prefix p' s' else None
  end.

(** [sub in s] *)
Fixpoint contains (sub s : str) : bool :=
  startswith sub s ||
  match s with
  | [] => false
  | _ :: t => contains sub t
  end.

(** [s.replace(old, new)]: occurrences are found left to right and do not
    overlap; [skip] counts the characters of the occurrence just replaced
    that are still to be passed over.  For an empty [old] Python puts [new]
    before every character and at the end. *)
Fixpoint replace_from (old new : str) (skip : nat) (s : str) : str :=
  match s with
  | [] => []
  | c :: t =>
      match skip with
      | S k => replace_from old new k t
      | O =>
          if startswith old s
          then new ++ replace_from old new (List.length old - 1) t
          else c :: replace_from old new 0 t
      end
  end.

Definition replace (old new s : str) : str :=
  match old with
  | [] => new ++ flat_map (fun c => c :: new) s
  | _ :: _ => replace_from old new 0 s
  end.

Definition in_chars (chars : str) (c : ascii) : bool :=
  existsb (Ascii.eqb c) chars.

Fixpoint lstrip_by (f : ascii -> bool) (s : str) : str :=
  match s with
  | [] => []
  | c :: t => if f c then lstrip_by f t else s
  end.

Definition rstrip_by (f : ascii -> bool) (s : str) : str :=
  rev (lstrip_by f (rev s)).

Definition strip_by (f : ascii -> bool) (s : str) : str :=
  rstrip_by f (lstrip_by f s).

(** [s.strip(chars)] *)
Definition strip (chars s : str) : str := strip_by (in_chars chars) s.

(** [c.isspace()] on code points below 256: TAB..CR, FS..US, space, NEL
    and the no-break space. *)
Definition isspace (c : ascii) : bool :=
  let n := nat_of_ascii c in
  ((9 <=? n) && (n <=? 13)) || ((28 <=? n) && (n <=? 32))
  || (n =? 133) || (n =? 160).

(** [s.strip()] *)
Definition strip_ws (s : str) : str := strip_by isspace s.

(** [c.lower()] on code points below 256: A..Z and the Latin-1 capitals
    (all of 192..222 but the multiplication sign 215) move up by 32. *)
Definition lower_char (c : ascii) : ascii :=
  let n := nat_of_ascii c in
  if ((65 <=? n) && (n <=? 90))
     || ((192 <=? n) && (n <=? 222) && negb (n =? 215))
  then ascii_of_nat (n + 32) else c.

(** [s.lower()] *)
Definition lower (s : str) : str := map lower_char s.

(** [s.split(sep, 1)] for a one-character separator: one part when [sep]
    does not occur, otherwise the text before and the text after its first
    occurrence. *)
Fixpoint split1 (sep : ascii) (s : str) : list str :=
  match s with
  | [] => [[]]
  | c :: t =>
      if Ascii.eqb c sep then [[]; t]
      else match split1 sep t with
           | [] => [[c]]
           | h :: rest => (c :: h) :: rest
           end
  end.

(** [parts[i]] for an index known to be in range (the empty text stands
    for the IndexError that the source never reaches) *)
Definition item (parts : list str) (i : nat) : str := nth i parts [].

End PyStr.

Import PyStr.

(** ** Regular expressions: the fragment of Python's [re] the source uses *)

Module Re.

(** One member of a bracketed set: a single character or a range. *)
Inductive class_item : Type :=
| One (c : ascii)
| Range (lo hi : ascii).

Definition in_item (x : ascii) (i : class_item) : bool :=
  match i with
  | One c => Ascii.eqb x c
  | Range lo hi =>
      (nat_of_ascii lo <=? nat_of_ascii x) && (nat_of_ascii x <=? nat_of_ascii hi)
  end.

Definition in_class (items : list class_item) (x : ascii) : bool :=
  existsb (in_item x) items.

Inductive regex : Type :=
| Bol                                   (* ^ *)
| Eol                                   (* $ *)
| Dot                                   (* . *)
| Lit (l : str)                         (* literal characters *)
| Class (items : list class_item)       (* [...] *)
| Seq (r1 r2 : regex)
| Alt (r1 r2 : regex)                   (* r1|r2 *)
| Star (r : regex)                      (* r* *)
| Plus (r : regex)                      (* r+ *)
| Opt (r : regex)                       (* r? *)
| Group (n : nat) (r : regex).          (* (r), the n-th opening parenthesis *)

(** Captured groups, most recent binding first. *)
Definition captures := list (nat * str).

Fixpoint group (caps : captures) (n : nat) : option str :=
  match caps with
  | [] => None
  | (m, w) :: rest => if m =? n then Some w else group rest n
  end.

Definition orelse {A} (x y : option A) : option A :=
  match x with
  | Some _ => x
  | None => y
  end.

(** A backtracking matcher in continuation-passing style.  [pos] is the
    number of characters already consumed, [s] the text still ahead, [k]
    what remains to be matched.  Alternatives are tried in Python's order:
    the left branch first, one more repetition before stopping. *)
Section Matcher.
Variable A : Type.

Definition cont := nat -> str -> captures -> option A.
Definition matcher := nat -> str -> captures -> cont -> option A.

(** Greedy repetition of [body].  A repetition that consumes nothing is
    abandoned, as in Python's engine; [fuel] bounds the repetitions by the
    length of the text ahead. *)
Fixpoint repeat_greedy (body : matcher) (fuel : nat) (pos : nat) (s : str)
    (c : captures) (k : cont) : option A :=
  match fuel with
  | O => k pos s c
  | S f =>
      orelse
        (body pos s c
           (fun p' s' c' =>
              if List.length s' <? List.length s
              then repeat_greedy body f p' s' c' k else None))
        (k pos s c)
  end.

Fixpoint run (r : regex) : matcher :=
  fun pos s c k =>
  match r with
  | Bol => if pos =? 0 then k pos s c else None
  | Eol =>
      match s with
      | [] => k pos s c
      | [x] => if Ascii.eqb x LF then k pos s c else None
      | _ => None
      end
  | Dot =>
      match s with
      | x :: t => if Ascii.eqb x LF then None else k (S pos) t c
      | [] => None
      end
  | Lit l =>
      match strip_prefix l s with
      | Some t => k (pos + List.length l) t c
      | None => None
      end
  | Class items =>
      match s with
      | x :: t => if in_class items x then k (S pos) t c else None
      | [] => None
      end
  | Seq r1 r2 => run r1 pos s c (fun p' s' c' => run r2 p' s' c' k)
  | Alt r1 r2 => orelse (run r1 pos s c k) (run r2 pos s c k)
  | Star r1 => repeat_greedy (run r1) (List.length s) pos s c k
  | Plus r1 =>
      run r1 pos s c
        (fun p' s' c' => repeat_greedy (run r1) (List.length s') p' s' c' k)
  | Opt r1 => orelse (run r1 pos s c k) (k pos s c)
  | Group n r1 =>
      run r1 pos s c
        (fun p' s' c' => k p' s' ((n, firstn (p' - pos) s) :: c'))
  end.

End Matcher.

(** [re.match(pattern, s)]: a match anchored at the start of [s]; the
    result carries the captured groups, [None] is Python's [None]. *)
Definition re_match (r : regex) (s : str) : option captures :=
  run r 0 s [] (fun _ _ c => Some c).

(** What a pattern denotes: [matches r pos w post] says that [r], started
    after [pos] consumed characters, can consume [w] when [post] follows. *)
Inductive matches : regex -> nat -> str -> str -> Prop :=
| MBol post : matches Bol 0 [] post
| MEol pos post : post = [] \/ post = [LF] -> matches Eol pos [] post
| MDot pos x post : x <> LF -> matches Dot pos [x] post
| MLit pos l post : matches (Lit l) pos l post
| MClass pos items x post :
    in_class items x = true -> matches (Class items) pos [x] post
| MSeq pos r1 r2 w1 w2 post :
    matches r1 pos w1 (w2 ++ post) ->
    matches r2 (pos + List.length w1) w2 post ->
    matches (Seq r1 r2) pos (w1 ++ w2) post
| MAltL pos r1 r2 w post :
    matches r1 pos w post -> matches (Alt r1 r2) pos w post
| MAltR pos r1 r2 w post :
    matches r2 pos w post -> matches (Alt r1 r2) pos w post
| MStarNil pos r post : matches (Star r) pos [] post
| MStarCons pos r w1 w2 post :
    w1 <> [] ->
    matches r pos w1 (w2 ++ post) ->
    matches (Star r) (pos + List.length w1) w2 post ->
    matches (Star r) pos (w1 ++ w2) post
| MPlus pos r w1 w2 post :
    matches r pos w1 (w2 ++ post) ->
    matches (Star r) (pos + List.length w1) w2 post ->
    matches (Plus r) pos (w1 ++ w2) post
| MOptSome pos r w post :
    matches r pos w post -> matches (Opt r) pos w post
| MOptNone pos r post : matches (Opt r) pos [] post
| MGroup pos n r w post :
    matches r pos w post -> matches (Group n r) pos w post.

End Re.

Import Re.

Declare Scope regex_scope.
Delimit Scope regex_scope with re.
Infix ">>" := Seq (at level 61, right associativity) : regex_scope.

(** Whether a Python value is true in a condition: a match object always
    is, [None] never, a text when it is not empty. *)
Definition matched {A} (m : option A) : bool :=
  match m with
  | Some _ => true
  | None => false
  end.

Definition nonempty (s : str) : bool :=
  match s with
  | [] => false
  | _ :: _ => true
  end.

(** ** CONFIG *)

Definition GITHUB_BASE : str := lit "https://datlittladucky.github.io/Websites/".

Definition START_PAGE : str := GITHUB_BASE ++ lit "start/index.html".

(** ** VALIDATION *)

Definition label_class : list class_item :=
  [Range "a" "z"; Range "A" "Z"; Range "0" "9"; One "-"].

Definition path_class : list class_item :=
  [Range "a" "z"; Range "A" "Z"; Range "0" "9"; One "-"; One "_"; One "/"].

(** The pattern of [validate_input] as the source writes it, and its
    syntax tree. *)
Definition validate_pattern_text : string :=
  "^(https?://)?([a-zA-Z0-9-]+\.)+(com|co\.uk|org)(/[a-zA-Z0-9\-_/]*)?$".

Definition validate_pattern : regex :=
  (Bol
   >> Opt (Group 1 (Lit (lit "http") >> Opt (Lit (lit "s")) >> Lit (lit "://")))
   >> Plus (Group 2 (Plus (Class label_class) >> Lit (lit ".")))
   >> Group 3 (Alt (Lit (lit "com")) (Alt (Lit (lit "co.uk")) (Lit (lit "org"))))
   >> Opt (Group 4 (Lit (lit "/") >> Star (Class path_class)))
   >> Eol)%re.

Definition validate_input (user_input : str) : option captures :=
  re_match validate_pattern user_input.

Definition parse_input (user_input : str) : str * str :=
  let user_input :=
    replace (lit "https://") (lit "") (replace (lit "http://") (lit "") user_input) in
  let user_input := strip (lit "/") user_input in
  let parts := split1 "/" user_input in
  let domain := item parts 0 in
  let subpath := if 1 <? List.length parts then item parts 1 else lit "" in
  (domain, subpath).

(** ** The state of one tab and the calls made on its view *)

(** What the rendering engine shows: nothing yet, the resource at a URL, or
    a document handed over as text. *)
Inductive Location : Type :=
| Blank
| Remote (url : str)
| InMemory (html : str).

(** The one callback the source passes to [runJavaScript]. *)
Inductive Callback : Type :=
| CheckTitleFor404.

(** The calls a handler makes, in the order it makes them. *)
Inductive Call : Type :=
| SetVirtualUrl (v : str)               (* browser.virtual_url = v *)
| SetUrl (url : str)                    (* browser.setUrl(QUrl(url)) *)
| SetHtml (html : str)                  (* browser.setHtml(html) *)
| RunJavaScript (script : str) (cb : Callback)
| SetTabText (text : str).              (* tabs.setTabText(index, text) *)

Record BrowserTab : Type := mkTab {
  virtual_url : str;
  location : Location;
  tab_text : str;
  pending : list (str * Callback);      (* scripts whose result is awaited *)
  calls : list Call
}.

(** Handlers are state transformers over the tab. *)
Definition Eff (A : Type) : Type := BrowserTab -> A * BrowserTab.

Definition ret {A} (x : A) : Eff A := fun t => (x, t).

Definition bind {A B} (m : Eff A) (f : A -> Eff B) : Eff B :=
  fun t => let (x, t') := m t in f x t'.

Notation "m ;; n" := (bind m (fun _ => n))
  (at level 62, right associativity).

Definition exec {A} (m : Eff A) (t : BrowserTab) : BrowserTab := snd (m t).

Definition set_virtual_url (v : str) : Eff unit :=
  fun t => (tt, mkTab v (location t) (tab_text t) (pending t)
                  (calls t ++ [SetVirtualUrl v])).

Definition setUrl (url : str) : Eff unit :=
  fun t => (tt, mkTab (virtual_url t) (Remote url) (tab_text t) (pending t)
                  (calls t ++ [SetUrl url])).

Definition setHtml (html : str) : Eff unit :=
  fun t => (tt, mkTab (virtual_url t) (InMemory html) (tab_text t) (pending t)
                  (calls t ++ [SetHtml html])).

Definition runJavaScript (script : str) (cb : Callback) : Eff unit :=
  fun t => (tt, mkTab (virtual_url t) (location t) (tab_text t)
                  (pending t ++ [(script, cb)])
                  (calls t ++ [RunJavaScript script cb])).

Definition setTabText (text : str) : Eff unit :=
  fun t => (tt, mkTab (virtual_url t) (location t) text (pending t)
                  (calls t ++ [SetTabText text])).

(** ** CUSTOM PAGE: blocks external browsing *)

(** The pattern of the hook as the source writes it, and its syntax tree. *)
Definition navigation_pattern_text : string := "https?://(.+)".

Definition navigation_pattern : regex :=
  (Lit (lit "http") >> Opt (Lit (lit "s")) >> Lit (lit "://")
   >> Group 1 (Plus Dot))%re.

(** [url_str] is [url.toString()]; the hook does not look at its other two
    arguments, [nav_type] and [is_main_frame].  A match of
    [navigation_pattern] always binds group 1; the branch for an unbound
    group is never taken. *)
Definition acceptNavigationRequest (url_str : str) : Eff bool :=
  if startswith GITHUB_BASE url_str then ret true
  else
    match re_match navigation_pattern url_str with
    | Some m =>
        match group m 1 with
        | Some user_input =>
            if matched (validate_input user_input) then
              let (domain, subpath) := parse_input user_input in
              let (new_url, virtual) :=
                if nonempty subpath
                then (GITHUB_BASE ++ domain ++ lit "/" ++ subpath ++ lit ".html",
                      domain ++ lit "/" ++ subpath)
                else (GITHUB_BASE ++ domain ++ lit "/index.html", domain) in
              set_virtual_url virtual ;;
              setUrl new_url ;;
              ret false
            else ret false
        | None => ret false
        end
    | None => ret false
    end.

(** ** BROWSER TAB *)

(** The text of the error document of [show_custom_404], before and after
    the place of the message. *)
Definition error_document_head : str := lit "
        <html>
            <head>
                <style>
                    body {
                        background-color: #111;
                        color: white;
                        font-family: Arial;
                        text-align: center;
                        margin-top: 15%;
                    }
                    h1 {
                        font-size: 60px;
                        color: red;
                    }
                    p {
                        font-size: 20px;
                        color: #ccc;
                    }
                </style>
            </head>
            <body>
                <h1>404</h1>
                <p>".

Definition error_document_tail : str := lit "</p>
                <p>The requested site does not exist.</p>
            </body>
        </html>
        ".

(** [BrowserTab.__init__] followed by [tabs.addTab(new_tab, "New Tab")] *)
Definition new_tab : BrowserTab :=
  mkTab (lit "") Blank (lit "New Tab") [] [].

Definition show_custom_404 (message : str) : Eff unit :=
  setHtml (error_document_head ++ message ++ error_document_tail).

(** [title[:40]] *)
Definition update_tab_title (title : str) : Eff unit :=
  if nonempty title && nonempty (strip_ws title)
  then setTabText (firstn 40 title)
  else setTabText (lit "Untitled").

Definition sync_virtual_url (url : str) : Eff unit :=
  if startswith GITHUB_BASE url then
    let stripped := replace GITHUB_BASE (lit "") url in
    let stripped := replace (lit ".html") (lit "") stripped in
    let stripped := strip (lit "/") stripped in
    set_virtual_url stripped
  else ret tt.

Definition check_load_success (success : bool) : Eff unit :=
  if negb success then show_custom_404 (lit "Page failed to load")
  else runJavaScript (lit "document.title") CheckTitleFor404.

(** [title] is the value the script produced; [None] is Python's [None]. *)
Definition check_title_for_404 (title : option str) : Eff unit :=
  match title with
  | Some text =>
      if nonempty text && contains (lit "404") text
      then show_custom_404 (lit "Page not found")
      else ret tt
  | None => ret tt
  end.

(** ** MAIN WINDOW *)

(** [add_tab(start_url)]: the new tab becomes the current one. *)
Definition add_tab (start_url : option str) : BrowserTab :=
  match start_url with
  | Some url => if nonempty url then exec (setUrl url) new_tab else new_tab
  | None => new_tab
  end.

(** [load_page], acting on the current tab; [text] is [url_bar.text()]. *)
Definition load_page (text : str) : Eff unit :=
  let user_input := strip_ws text in
  if existsb (str_eqb (lower user_input)) [lit "start"; lit "websites/start"]
  then setUrl START_PAGE
  else if negb (matched (validate_input user_input))
  then show_custom_404 (lit "Invalid domain format")
  else
    let (domain, subpath) := parse_input user_input in
    let (target_url, virtual) :=
      if nonempty subpath
      then (GITHUB_BASE ++ domain ++ lit "/" ++ subpath ++ lit ".html",
            domain ++ lit "/" ++ subpath)
      else (GITHUB_BASE ++ domain ++ lit "/index.html", domain) in
    set_virtual_url virtual ;;
    setUrl target_url ;;
    setTabText domain.

(** ** The events of a tab *)

Inductive Event : Type :=
| NavigationRequest (url : str)         (* the engine asks the page's hook *)
| ReturnPressed (text : str)            (* url_bar.returnPressed *)
| TitleChanged (title : str)            (* browser.titleChanged *)
| UrlChanged (url : str)                (* browser.urlChanged *)
| LoadFinished (success : bool)         (* browser.loadFinished *)
| JavaScriptResult (value : option str). (* the awaited script has run *)

(** The engine proceeds with a navigation the hook accepted. *)
Definition engine_load (url : str) (t : BrowserTab) : BrowserTab :=
  mkTab (virtual_url t) (Remote url) (tab_text t) (pending t) (calls t).

Definition invoke (cb : Callback) (value : option str) : Eff unit :=
  match cb with
  | CheckTitleFor404 => check_title_for_404 value
  end.

Definition handle (ev : Event) (t : BrowserTab) : BrowserTab :=
  match ev with
  | NavigationRequest url =>
      let (accepted, t') := acceptNavigationRequest url t in
      if accepted then engine_load url t' else t'
  | ReturnPressed text => exec (load_page text) t
  | TitleChanged title => exec (update_tab_title title) t
  | UrlChanged url => exec (sync_virtual_url url) t
  | LoadFinished success => exec (check_load_success success) t
  | JavaScriptResult value =>
      match pending t with
      | [] => t
      | (_, cb) :: rest =>
          exec (invoke cb value)
            (mkTab (virtual_url t) (location t) (tab_text t) rest (calls t))
      end
  end.

(** The states a tab can be in: it is opened on the start page, as both
    callers of [add_tab] do, and then handles events. *)
Inductive reachable : BrowserTab -> Prop :=
| reach_open : reachable (add_tab (Some START_PAGE))
| reach_step t ev : reachable t -> reachable (handle ev t).

(** ** The tabs of the window *)

(** [self.tabs]: the pages of the tab widget, in their order. *)
Definition Tabs : Type := list BrowserTab.

(** [tabs.removeTab(index)]: the page at [index] goes; for an index that
    is no position of the widget nothing happens. *)
Definition removeTab (index : Z) (ts : Tabs) : Tabs :=
  if ((0 <=? index)%Z && (index <? Z.of_nat (List.length ts))%Z)%bool
  then firstn (Z.to_nat index) ts ++ skipn (S (Z.to_nat index)) ts
  else ts.

(** [close_tab(index)] *)
Definition close_tab (index : Z) (ts : Tabs) : Tabs :=
  if 1 <? List.length ts then removeTab index ts else ts.

(** [add_tab(start_url)] on the window: [tabs.addTab] puts the new page
    behind the others. *)
Definition window_add_tab (start_url : option str) (ts : Tabs) : Tabs :=
  ts ++ [add_tab start_url].

(** [MiniBrowser.__init__]: one tab, on the start page. *)
Definition MiniBrowser_init : Tabs := window_add_tab (Some START_PAGE) [].

Inductive WindowEvent : Type :=
| NewTabClicked                         (* new_tab_btn.clicked *)
| TabCloseRequested (index : Z)         (* tabs.tabCloseRequested *)
| TabEvent (i : nat) (ev : Event).      (* an event of the tab at position i *)

Definition window_handle (e : WindowEvent) (ts : Tabs) : Tabs :=
  match e with
  | NewTabClicked => window_add_tab (Some START_PAGE) ts
  | TabCloseRequested index => close_tab index ts
  | TabEvent i ev =>
      match nth_error ts i with
      | Some t => firstn i ts ++ handle ev t :: skipn (S i) ts
      | None => ts
      end
  end.

Inductive window_reachable : Tabs -> Prop :=
| window_open : window_reachable MiniBrowser_init
| window_step ts e :
    window_reachable ts -> window_reachable (window_handle e ts).

(** * The specification's vocabulary *)

(** ** The address grammar of section 4.1

    [[scheme://]label(.label)+.tld[/path]*]: an optional [http] or [https]
    scheme, labels each followed by a dot, one of the three top-level
    names, and an optional path that begins with a slash.  One label before
    the top-level name is enough: the specification's Scenario A takes
    [example.com] as an address. *)

Definition alphanumeric (c : ascii) : bool :=
  let n := nat_of_ascii c in
  ((97 <=? n) && (n <=? 122)) || ((65 <=? n) && (n <=? 90))
  || ((48 <=? n) && (n <=? 57)).

Definition label_char (c : ascii) : bool :=
  alphanumeric c || Ascii.eqb c "-".

Definition path_char (c : ascii) : bool :=
  alphanumeric c || Ascii.eqb c "-" || Ascii.eqb c "_" || Ascii.eqb c "/".

Definition scheme_ok (sch : str) : Prop :=
  sch = lit "" \/ sch = lit "http://" \/ sch = lit "https://".

Definition label_ok (l : str) : Prop :=
  l <> [] /\ forallb label_char l = true.

Definition hostname (labels : list str) : str :=
  List.concat (map (fun l => l ++ lit ".") labels).

Definition tld_ok (tld : str) : Prop :=
  tld = lit "com" \/ tld = lit "co.uk" \/ tld = lit "org".

Definition path_ok (path : str) : Prop :=
  path = [] \/ exists q, path = lit "/" ++ q /\ forallb path_char q = true.

Definition address_grammar (s : str) : Prop :=
  exists sch labels tld path,
    s = sch ++ hostname labels ++ tld ++ path /\
    scheme_ok sch /\ labels <> [] /\ Forall label_ok labels /\
    tld_ok tld /\ path_ok path.

(** [occurs p s]: the text [p] is found somewhere in [s]. *)
Definition occurs (p s : str) : Prop := exists a b, s = a ++ p ++ b.

(** ** Section 3 and 4.1: what parsing and rewriting are to produce *)

(** The static host; [GITHUB_BASE] is this text and a slash. *)
Definition static_host : str := lit "https://datlittladucky.github.io/Websites".

(** [{host}/{domain}/{subpath}.html] if subpath non-empty, else
    [{host}/{domain}/index.html] *)
Definition Rewritten_Target (domain subpath : str) : str :=
  match subpath with
  | [] => static_host ++ lit "/" ++ domain ++ lit "/index.html"
  | _ :: _ => static_host ++ lit "/" ++ domain ++ lit "/" ++ subpath ++ lit ".html"
  end.

(** [{domain}/{subpath}] or [{domain}] *)
Definition Virtual_Address (domain subpath : str) : str :=
  match subpath with
  | [] => domain
  | _ :: _ => domain ++ lit "/" ++ subpath
  end.

(** Domain and subpath joined again with a slash; no slash for an empty
    subpath. *)
Definition rejoin (domain subpath : str) : str :=
  match subpath with
  | [] => domain
  | _ :: _ => domain ++ lit "/" ++ subpath
  end.

(** A text made of slashes only. *)
Definition slashes (l : str) : Prop := Forall (eq "/"%char) l.

(** A text that neither begins nor ends with a slash. *)
Definition no_edge_slash (n : str) : Prop :=
  (forall x b, n = x :: b -> x <> "/"%char) /\
  (forall a x, n = a ++ [x] -> x <> "/"%char).

(** [n] split at its first slash: all of [n] and an empty subpath when
    there is no slash. *)
Definition split_at_first_slash (n domain subpath : str) : Prop :=
  (~ In "/"%char n /\ domain = n /\ subpath = []) \/
  (~ In "/"%char domain /\ n = domain ++ "/"%char :: subpath).

(** [n] is [s] without the slashes at its two ends. *)
Definition slash_stripped (s n : str) : Prop :=
  exists l t, s = l ++ n ++ t /\ slashes l /\ slashes t /\ no_edge_slash n.

(** [body], which is the input without its scheme, loses the slashes at
    its two ends and is split at the first slash that is left. *)
Definition parses_to (body domain subpath : str) : Prop :=
  exists n, slash_stripped body n /\ split_at_first_slash n domain subpath.

(** [body] is [s] without a leading scheme, and is [s] when [s] has none. *)
Definition leading_scheme_removed (s body : str) : Prop :=
  s = lit "http://" ++ body \/ s = lit "https://" ++ body \/
  (s = body /\ startswith (lit "http://") s = false /\
   startswith (lit "https://") s = false).

(** Section 4.1 on [parse], read for one input: a leading scheme goes and
    nothing else, then the slashes at the ends, then the split. *)
Definition parse_strips_leading_scheme_only (s : str) : Prop :=
  exists body,
    leading_scheme_removed s body /\
    parses_to body (fst (parse_input s)) (snd (parse_input s)).

(** The scheme texts occur in [s] at most once, in front. *)
Definition scheme_only_in_front (s : str) : Prop :=
  exists sch body,
    s = sch ++ body /\ scheme_ok sch /\
    ~ occurs (lit "http://") body /\ ~ occurs (lit "https://") body.

(** ** Section 4.2: the decision of the navigation interceptor *)

Inductive Decision : Type :=
| Allow
| CancelAndRedirect (newTarget newVirtualAddress : str)
| Block.

(** The target without its [http://] or [https://], when it has one. *)
Definition after_scheme (target : str) : option str :=
  match strip_prefix (lit "https://") target with
  | Some rest => Some rest
  | None => strip_prefix (lit "http://") target
  end.

Definition decide (targetAddress : str) : Decision :=
  if startswith GITHUB_BASE targetAddress then Allow
  else
    match after_scheme targetAddress with
    | Some rest =>
        if matched (validate_input rest)
        then let (domain, subpath) := parse_input rest in
             CancelAndRedirect (Rewritten_Target domain subpath)
                               (Virtual_Address domain subpath)
        else Block
    | None => Block
    end.

(** The tab after a redirect: the virtual address is set, then the load
    of the new target is issued. *)
Definition redirected (target va : str) (t : BrowserTab) : BrowserTab :=
  mkTab va (Remote target) (tab_text t) (pending t)
        (calls t ++ [SetVirtualUrl va; SetUrl target]).

(** The text of a line: up to the first line feed. *)
Fixpoint first_line (s : str) : str :=
  match s with
  | [] => []
  | c :: t => if Ascii.eqb c LF then [] else c :: first_line t
  end.

(** ** Sections 6 and 7: error documents and the address bar *)

(** The locally generated error document with the given message. *)
Definition error_document (message : str) : str :=
  error_document_head ++ message ++ error_document_tail.

(** The literal tokens of the address bar, as [load_page] compares them. *)
Definition is_start_token (user_input : str) : Prop :=
  lower user_input = lit "start" \/ lower user_input = lit "websites/start".

(** The tab after a successful submission of an address. *)
Definition submitted (domain subpath : str) (t : BrowserTab) : BrowserTab :=
  mkTab (Virtual_Address domain subpath)
        (Remote (Rewritten_Target domain subpath))
        domain (pending t)
        (calls t ++ [SetVirtualUrl (Virtual_Address domain subpath);
                     SetUrl (Rewritten_Target domain subpath);
                     SetTabText domain]).

(** The tab showing an error document: nothing else changes. *)
Definition showing_error (message : str) (t : BrowserTab) : BrowserTab :=
  mkTab (virtual_url t) (InMemory (error_document message)) (tab_text t)
        (pending t) (calls t ++ [SetHtml (error_document message)]).

(** The address-bar contract of section 6, with the entered text compared
    and validated as it is. *)
Definition submission_as_worded : Prop :=
  forall text t,
    ((text = lit "start" \/ text = lit "websites/start") ->
     location (exec (load_page text) t) = Remote START_PAGE) /\
    (text <> lit "start" -> text <> lit "websites/start" ->
     matched (validate_input text) = true ->
     virtual_url (exec (load_page text) t)
     = Virtual_Address (fst (parse_input text)) (snd (parse_input text)) /\
     location (exec (load_page text) t)
     = Remote (Rewritten_Target (fst (parse_input text)) (snd (parse_input text)))) /\
    (text <> lit "start" -> text <> lit "websites/start" ->
     matched (validate_input text) = false ->
     location (exec (load_page text) t)
     = InMemory (error_document (lit "Invalid domain format")) /\
     virtual_url (exec (load_page text) t) = virtual_url t).

(** The observation about doubled slashes, read for every accepted input
    that has two slashes in a row. *)
Definition double_slash_as_worded : Prop :=
  forall s,
    matched (validate_input s) = true -> occurs (lit "//") s ->
    (exists p, snd (parse_input s) = "/"%char :: p) /\
    occurs (lit "//")
      (Virtual_Address (fst (parse_input s)) (snd (parse_input s))) /\
    (exists tail,
       Rewritten_Target (fst (parse_input s)) (snd (parse_input s))
       = GITHUB_BASE ++ tail /\ occurs (lit "//") tail).

(** ** Section 3: the invariant on what the engine shows *)

(** The start page, a location under the static-host base URL, or a locally
    generated error document. *)
Definition location_ok (l : Location) : Prop :=
  l = Remote START_PAGE \/
  (exists url, l = Remote url /\ startswith GITHUB_BASE url = true) \/
  (exists message, l = InMemory (error_document message)).

(** A call that sets the location sets it to such a place. *)
Definition call_ok (c : Call) : Prop :=
  match c with
  | SetUrl url => startswith GITHUB_BASE url = true
  | SetHtml html => exists message, html = error_document message
  | _ => True
  end.

Definition confined (t : BrowserTab) : Prop :=
  location_ok (location t) /\ Forall call_ok (calls t).

(** ** Section 4.3: the virtual address of a completed navigation *)

(** [stem] is [rest] without a final [.html], and is [rest] when [rest]
    does not end so. *)
Definition html_suffix_removed (rest stem : str) : Prop :=
  rest = stem ++ lit ".html" \/
  (rest = stem /\ ~ exists a, rest = a ++ lit ".html").

(** Section 4.3, read as it is worded: under the host the virtual address
    is derived from the location, elsewhere it is empty afterwards. *)
Definition sync_as_worded : Prop :=
  forall url t,
    (forall rest,
       url = GITHUB_BASE ++ rest ->
       exists stem,
         html_suffix_removed rest stem /\
         slash_stripped stem (virtual_url (exec (sync_virtual_url url) t))) /\
    (startswith GITHUB_BASE url = false ->
     virtual_url (exec (sync_virtual_url url) t) = lit "").

(** * Auxiliary notions of the proofs *)

(** A matcher finds only matches of [r]. *)
Definition sound_for {A} (r : regex) (m : matcher A) : Prop :=
  forall pos s c k x,
    m pos s c k = Some x ->
    exists w post c',
      s = w ++ post /\ matches r pos w post /\
      k (pos + List.length w) post c' = Some x.

(** A matcher finds some match whenever [r] has one that the continuation
    accepts. *)
Definition complete_for {A} (r : regex) (m : matcher A) : Prop :=
  forall pos w post,
    matches r pos w post ->
    forall c k,
      (forall c', k (pos + List.length w) post c' <> None) ->
      m pos (w ++ post) c k <> None.

(** What stripping by [f] leaves neither begins nor ends with a stripped
    character. *)
Definition trimmed (f : ascii -> bool) (n : str) : Prop :=
  (forall x b, n = x :: b -> f x = false) /\
  (forall a x, n = a ++ [x] -> f x = false).

(** One label and its dot, as group 2 of [validate_pattern] has it. *)
Definition label_dot : regex :=
  Group 2 (Seq (Plus (Class label_class)) (Lit (lit "."))).

Definition http : str := lit "http://".
Definition https : str := lit "https://".

(** The text [parse_input] splits: the input without scheme texts and
    without the slashes at its ends. *)
Definition normalised (s : str) : str :=
  strip (lit "/") (replace https (lit "") (replace http (lit "") s)).

(** The characters a text of the grammar has behind its scheme. *)
Definition body_char (c : ascii) : bool := path_char c || Ascii.eqb c ".".

(** The characters of a host name: those of a label, and the dot. *)
Definition host_char (c : ascii) : bool := label_char c || Ascii.eqb c ".".

Definition is_dot (c : ascii) : bool := Ascii.eqb c ".".

(** No dot of [s] comes right after another; [prev] tells whether the
    character before [s] is a dot. *)
Fixpoint no_dotdot (prev : bool) (s : str) : bool :=
  match s with
  | [] => true
  | c :: t => if is_dot c then negb prev && no_dotdot true t
              else no_dotdot false t
  end.

(** Whether the text [s], coming after a dot or not, ends with a dot. *)
Fixpoint ends_dot (prev : bool) (s : str) : bool :=
  match s with
  | [] => prev
  | c :: t => ends_dot (is_dot c) t
  end.

(** The path of a grammar text without its first slash. *)
Definition path_rest (path : str) : str := tl path.

(** The three messages with which the source calls [show_custom_404]. *)
Definition error_message (m : str) : Prop :=
  m = lit "Page failed to load" \/ m = lit "Page not found" \/
  m = lit "Invalid domain format".

(** The one script the source passes to [runJavaScript]. *)
Definition title_script : str * Callback :=
  (lit "document.title", CheckTitleFor404).

(** What the handlers of the source call the engine with: the start page
    or the target of a text of the grammar, one of the three error
    documents, the title script. *)
Definition call_known (c : Call) : Prop :=
  match c with
  | SetUrl url =>
      url = START_PAGE \/
      exists g, address_grammar g /\
                url = Rewritten_Target (fst (parse_input g))
                                       (snd (parse_input g))
  | SetHtml html => exists m, error_message m /\ html = error_document m
  | RunJavaScript script cb => (script, cb) = title_script
  | SetVirtualUrl _ | SetTabText _ => True
  end.

Definition location_known (l : Location) : Prop :=
  match l with
  | Blank => False
  | Remote url => startswith GITHUB_BASE url = true
  | InMemory html => exists m, error_message m /\ html = error_document m
  end.

Definition known (t : BrowserTab) : Prop :=
  location_known (location t) /\ Forall call_known (calls t) /\
  Forall (eq title_script) (pending t).

(** * Properties *)

(** ** The string operations on small inputs *)

Example replace_all_occurrences :
  replace (lit "ab") (lit "") (lit "xabyabab") = lit "xy".
Proof. reflexivity. Qed.

Example replace_no_overlap :
  replace (lit "aa") (lit "b") (lit "aaa") = lit "ba".
Proof. reflexivity. Qed.

Example replace_empty_old :
  replace (lit "") (lit "-") (lit "ab") = lit "-a-b-".
Proof. reflexivity. Qed.

Example strip_both_ends :
  strip (lit "/") (lit "//a/b//") = lit "a/b".
Proof. reflexivity. Qed.

Example split1_first_only :
  split1 "/" (lit "a/b/c") = [lit "a"; lit "b/c"].
Proof. reflexivity. Qed.

Example split1_no_separator : split1 "/" (lit "abc") = [lit "abc"].
Proof. reflexivity. Qed.

Example strip_ws_then_lower :
  lower (strip_ws (lit "  StArt ")) = lit "start".
Proof. reflexivity. Qed.

Example match_groups :
  re_match validate_pattern (lit "https://a.b.com/x/y")
  = Some [(4, lit "/x/y"); (3, lit "com"); (2, lit "b."); (2, lit "a.");
          (1, lit "https://")].
Proof. reflexivity. Qed.

Example navigation_group :
  re_match navigation_pattern (lit "https://example.com/foo")
  = Some [(1, lit "example.com/foo")].
Proof. reflexivity. Qed.

(** ** Prefixes, occurrences and replacement *)

Section StringFacts.

Lemma strip_prefix_app (p t : str) : strip_prefix p (p ++ t) = Some t.
Proof.
  induction p as [|a p IH]; simpl; [reflexivity|].
  now rewrite Ascii.eqb_refl.
Qed.

Lemma strip_prefix_Some (p s t : str) :
  strip_prefix p s = Some t -> s = p ++ t.
Proof.
  revert s; induction p as [|a p IH]; intros [|b s]; simpl; intros H;
    try congruence.
  destruct (Ascii.eqb_spec a b) as [->|]; [|discriminate].
  now rewrite (IH _ H).
Qed.

Lemma startswith_strip_prefix (p s : str) :
  startswith p s = matched (strip_prefix p s).
Proof.
  revert s; induction p as [|a p IH]; intros [|b s]; simpl; try reflexivity.
  destruct (Ascii.eqb a b); simpl; auto.
Qed.

Lemma startswith_app (p t : str) : startswith p (p ++ t) = true.
Proof. now rewrite startswith_strip_prefix, strip_prefix_app. Qed.

Lemma startswith_true (p s : str) :
  startswith p s = true -> exists t, s = p ++ t.
Proof.
  rewrite startswith_strip_prefix.
  destruct (strip_prefix p s) as [t|] eqn:E; [|discriminate].
  intros _; exists t; now apply strip_prefix_Some.
Qed.

Lemma startswith_false (p s t : str) :
  startswith p s = false -> s <> p ++ t.
Proof. intros H ->; now rewrite startswith_app in H. Qed.

Lemma occurs_cons (p : str) (c : ascii) (s : str) :
  occurs p s -> occurs p (c :: s).
Proof. intros (a & b & ->); now exists (c :: a), b. Qed.

Lemma occurs_app_r (p a s : str) : occurs p s -> occurs p (a ++ s).
Proof. induction a; simpl; auto using occurs_cons. Qed.

Lemma occurs_app_l (p s b : str) : occurs p s -> occurs p (s ++ b).
Proof.
  intros (a & b' & ->); exists a, (b' ++ b); now rewrite <- !app_assoc.
Qed.

Lemma contains_startswith (p s : str) :
  startswith p s = true -> contains p s = true.
Proof. destruct s; simpl; intros ->; reflexivity. Qed.

Lemma contains_occurs (p s : str) : contains p s = true <-> occurs p s.
Proof.
  split.
  - induction s as [|c s IH]; simpl; intros H.
    + rewrite orb_false_r in H.
      destruct (startswith_true _ _ H) as [t ->]; now exists [], t.
    + apply orb_true_iff in H as [H|H].
      * destruct (startswith_true _ _ H) as [t ->]; now exists [], t.
      * auto using occurs_cons.
  - intros (a & b & ->).
    induction a as [|c a IH]; simpl.
    + apply contains_startswith, startswith_app.
    + rewrite IH; apply orb_true_r.
Qed.

(** Replacing a text that does not occur changes nothing. *)
Lemma replace_from_absent (old new s : str) :
  ~ occurs old s -> replace_from old new 0 s = s.
Proof.
  induction s as [|c s IH]; simpl; intros H; [reflexivity|].
  destruct (startswith old (c :: s)) eqn:E.
  - destruct (startswith_true _ _ E) as [t Ht].
    exfalso; apply H; exists [], t; exact Ht.
  - f_equal; apply IH; intros Ho; apply H; now apply occurs_cons.
Qed.

Lemma replace_absent (old new s : str) :
  old <> [] -> ~ occurs old s -> replace old new s = s.
Proof.
  destruct old; [congruence|]; intros _; apply replace_from_absent.
Qed.

Lemma replace_from_skip (old new : str) (n : nat) (s : str) :
  replace_from old new n s = replace_from old new 0 (skipn n s).
Proof.
  revert s; induction n as [|n IH]; intros [|c s]; simpl; auto.
Qed.

(** A leading occurrence is replaced and the scan goes on behind it. *)
Lemma replace_leading (old new t : str) :
  old <> [] -> replace old new (old ++ t) = new ++ replace old new t.
Proof.
  destruct old as [|a old]; [congruence|]; intros _.
  unfold replace; cbn [app replace_from].
  change (a :: old ++ t) with ((a :: old) ++ t).
  rewrite startswith_app, replace_from_skip.
  replace (List.length (a :: old) - 1) with (List.length old)
    by (cbn [List.length]; lia).
  now rewrite skipn_app, skipn_all, Nat.sub_diag.
Qed.

Lemma occurs_In (p s : str) (c : ascii) : In c p -> occurs p s -> In c s.
Proof. intros Hc (a & b & ->); rewrite !in_app_iff; auto. Qed.

End StringFacts.

(** ** The matcher finds a match exactly when the pattern denotes one *)

Module ReFacts.

Lemma orelse_Some {A} (x y : option A) (v : A) :
  orelse x y = Some v -> x = Some v \/ (x = None /\ y = Some v).
Proof. destruct x; simpl; auto. Qed.

Lemma orelse_left {A} (x y : option A) : x <> None -> orelse x y <> None.
Proof. destruct x; simpl; congruence. Qed.

Lemma orelse_right {A} (x y : option A) : y <> None -> orelse x y <> None.
Proof. destruct x; simpl; congruence. Qed.

Section Soundness.
Variable A : Type.

Lemma repeat_sound (r : regex) (body : matcher A) :
  sound_for r body ->
  forall fuel, sound_for (Star r) (repeat_greedy body fuel).
Proof.
  intros Hbody fuel; induction fuel as [|f IH]; intros pos s c k x H.
  - exists [], s, c; simpl in *; rewrite Nat.add_0_r.
    repeat split; auto; constructor.
  - simpl in H; apply orelse_Some in H as [H|[_ H]].
    + apply Hbody in H as (w1 & post1 & c1 & -> & Hm & H).
      destruct (Nat.ltb_spec (List.length post1) (List.length (w1 ++ post1)))
        as [Hlt|]; [|discriminate].
      apply IH in H as (w2 & post & c2 & -> & Hs & H).
      exists (w1 ++ w2), post, c2.
      rewrite length_app, Nat.add_assoc, <- app_assoc.
      repeat split; auto.
      apply MStarCons; auto.
      intros ->; simpl in Hlt; lia.
    + exists [], s, c; rewrite Nat.add_0_r.
      repeat split; auto; constructor.
Qed.

Lemma run_sound (r : regex) : sound_for r (run (A:=A) r).
Proof.
  induction r as [| | |l|items|r1 IH1 r2 IH2|r1 IH1 r2 IH2|r1 IH1|r1 IH1
                   |r1 IH1|n r1 IH1];
    intros pos s c k x H; simpl in H.
  - destruct (Nat.eqb_spec pos 0) as [->|]; [|discriminate].
    exists [], s, c; repeat split; auto; constructor.
  - exists [], s, c; rewrite Nat.add_0_r.
    destruct s as [|a [|b s]]; try discriminate.
    + repeat split; auto; constructor; auto.
    + destruct (Ascii.eqb_spec a LF) as [->|]; [|discriminate].
      repeat split; auto; constructor; auto.
  - destruct s as [|a s]; [discriminate|].
    destruct (Ascii.eqb_spec a LF) as [|Hne]; [discriminate|].
    exists [a], s, c; rewrite Nat.add_1_r.
    repeat split; auto; now constructor.
  - destruct (strip_prefix l s) as [t|] eqn:E; [|discriminate].
    apply strip_prefix_Some in E as ->.
    exists l, t, c; repeat split; auto; constructor.
  - destruct s as [|a s]; [discriminate|].
    destruct (in_class items a) eqn:E; [|discriminate].
    exists [a], s, c; rewrite Nat.add_1_r.
    repeat split; auto; now constructor.
  - apply IH1 in H as (w1 & post1 & c1 & -> & Hm1 & H).
    apply IH2 in H as (w2 & post & c2 & -> & Hm2 & H).
    exists (w1 ++ w2), post, c2.
    rewrite length_app, Nat.add_assoc, <- app_assoc.
    repeat split; auto; now constructor.
  - apply orelse_Some in H as [H|[_ H]].
    + apply IH1 in H as (w & post & c' & -> & Hm & H).
      exists w, post, c'; repeat split; auto; now apply MAltL.
    + apply IH2 in H as (w & post & c' & -> & Hm & H).
      exists w, post, c'; repeat split; auto; now apply MAltR.
  - now apply (repeat_sound IH1) in H.
  - apply IH1 in H as (w1 & post1 & c1 & -> & Hm1 & H).
    apply (repeat_sound IH1) in H as (w2 & post & c2 & -> & Hm2 & H).
    exists (w1 ++ w2), post, c2.
    rewrite length_app, Nat.add_assoc, <- app_assoc.
    repeat split; auto; now constructor.
  - apply orelse_Some in H as [H|[_ H]].
    + apply IH1 in H as (w & post & c' & -> & Hm & H).
      exists w, post, c'; repeat split; auto; now constructor.
    + exists [], s, c; rewrite Nat.add_0_r.
      repeat split; auto; apply MOptNone.
  - apply IH1 in H as (w & post & c' & -> & Hm & H).
    eexists w, post, _; repeat split; eauto; now constructor.
Qed.

End Soundness.

Section Completeness.
Variable A : Type.

Lemma repeat_complete (r : regex) (body : matcher A) :
  complete_for r body ->
  forall fuel pos w post,
    matches (Star r) pos w post ->
    List.length (w ++ post) <= fuel ->
    forall c k,
      (forall c', k (pos + List.length w) post c' <> None) ->
      repeat_greedy body fuel pos (w ++ post) c k <> None.
Proof.
  intros Hbody fuel; induction fuel as [|f IH]; intros pos w post Hm Hlen c k Hk.
  - destruct w; [|simpl in Hlen; lia].
    simpl; specialize (Hk c); now rewrite Nat.add_0_r in Hk.
  - inversion Hm as [| |?|?|?|?|?|?|p0 r0 post0|p0 r0 w1 w2 post0 Hne H1 H2| | | |];
      subst.
    + simpl; apply orelse_right.
      specialize (Hk c); now rewrite Nat.add_0_r in Hk.
    + cbn [repeat_greedy]; apply orelse_left.
      rewrite <- app_assoc.
      apply Hbody; [exact H1|]; intros c'.
      destruct (Nat.ltb_spec (List.length (w2 ++ post))
                  (List.length (w1 ++ w2 ++ post))) as [_|Hge].
      * apply IH; auto.
        -- rewrite <- app_assoc, length_app in Hlen.
           destruct w1; [congruence|]; simpl in Hlen; lia.
        -- intros c''; specialize (Hk c'').
           now rewrite length_app, Nat.add_assoc in Hk.
      * rewrite (length_app w1) in Hge.
        destruct w1; [congruence|]; simpl in Hge; lia.
Qed.

Lemma run_complete (r : regex) : complete_for r (run (A:=A) r).
Proof.
  induction r as [| | |l|items|r1 IH1 r2 IH2|r1 IH1 r2 IH2|r1 IH1|r1 IH1
                   |r1 IH1|n r1 IH1];
    intros pos w post Hm c k Hk.
  - inversion Hm; subst; simpl in *; apply Hk.
  - inversion Hm; subst; simpl in *.
    specialize (Hk c); rewrite Nat.add_0_r in Hk.
    match goal with H : _ \/ _ |- _ => destruct H as [->| ->] end; auto.
  - inversion Hm; subst; simpl in *.
    specialize (Hk c); rewrite Nat.add_1_r in Hk.
    destruct (Ascii.eqb_spec x LF); [contradiction|auto].
  - inversion Hm; subst; simpl in *.
    rewrite strip_prefix_app; apply Hk.
  - inversion Hm; subst; simpl in *.
    specialize (Hk c); rewrite Nat.add_1_r in Hk.
    match goal with H : in_class _ _ = true |- _ => rewrite H end; auto.
  - inversion Hm; subst; simpl.
    rewrite <- app_assoc.
    apply IH1; [assumption|]; intros c'.
    apply IH2; [assumption|]; intros c''.
    specialize (Hk c''); now rewrite length_app, Nat.add_assoc in Hk.
  - inversion Hm; subst; simpl.
    + apply orelse_left; now apply IH1.
    + apply orelse_right; now apply IH2.
  - simpl; apply (repeat_complete IH1); auto.
  - inversion Hm; subst; simpl.
    rewrite <- app_assoc.
    apply IH1; [assumption|]; intros c'.
    apply (repeat_complete IH1); auto.
    intros c''; specialize (Hk c''); now rewrite length_app, Nat.add_assoc in Hk.
  - inversion Hm; subst; simpl.
    + apply orelse_left; now apply IH1.
    + apply orelse_right; specialize (Hk c); now rewrite Nat.add_0_r in Hk.
  - inversion Hm; subst; simpl.
    apply IH1; [assumption|]; intros c'; apply Hk.
Qed.

End Completeness.

(** [re.match] returns a match object exactly when the pattern denotes
    some leading part of the text. *)
Lemma re_match_matches (r : regex) (s : str) :
  matched (re_match r s) = true <->
  exists w post, s = w ++ post /\ matches r 0 w post.
Proof.
  unfold re_match; split.
  - destruct (run r 0 s [] (fun _ _ c => Some c)) as [x|] eqn:E;
      [intros _|discriminate].
    apply run_sound in E as (w & post & _ & -> & Hm & _); eauto.
  - intros (w & post & -> & Hm).
    destruct (run r 0 (w ++ post) [] (fun _ _ c => Some c)) eqn:E;
      [reflexivity|].
    exfalso; revert E; apply run_complete; [assumption|]; discriminate.
Qed.

End ReFacts.

(** ** What [validate_input] accepts *)

Module ValidateFacts.
Import ReFacts.

Lemma matches_Seq_inv r1 r2 pos w post :
  matches (Seq r1 r2) pos w post ->
  exists w1 w2, w = w1 ++ w2 /\ matches r1 pos w1 (w2 ++ post) /\
                matches r2 (pos + List.length w1) w2 post.
Proof. inversion 1; subst; eauto. Qed.

Lemma matches_Plus_inv r pos w post :
  matches (Plus r) pos w post ->
  exists w1 w2, w = w1 ++ w2 /\ matches r pos w1 (w2 ++ post) /\
                matches (Star r) (pos + List.length w1) w2 post.
Proof. inversion 1; subst; eauto. Qed.

Lemma matches_Lit_inv l pos w post : matches (Lit l) pos w post -> w = l.
Proof. now inversion 1. Qed.

Lemma matches_Opt_inv r pos w post :
  matches (Opt r) pos w post -> w = [] \/ matches r pos w post.
Proof. inversion 1; subst; auto. Qed.

Lemma matches_Alt_inv r1 r2 pos w post :
  matches (Alt r1 r2) pos w post ->
  matches r1 pos w post \/ matches r2 pos w post.
Proof. inversion 1; subst; auto. Qed.

Lemma matches_Group_inv n r pos w post :
  matches (Group n r) pos w post -> matches r pos w post.
Proof. now inversion 1. Qed.

Lemma matches_Bol_inv pos w post : matches Bol pos w post -> w = [].
Proof. now inversion 1. Qed.

Lemma matches_Eol_inv pos w post :
  matches Eol pos w post -> w = [] /\ (post = [] \/ post = [LF]).
Proof. inversion 1; subst; auto. Qed.

Lemma matches_Class_inv items pos w post :
  matches (Class items) pos w post ->
  exists x, w = [x] /\ in_class items x = true.
Proof. inversion 1; subst; eauto. Qed.

(** Repetitions of a bracketed set. *)
Lemma star_class_inv items pos w post :
  matches (Star (Class items)) pos w post ->
  forallb (in_class items) w = true.
Proof.
  intros H; remember (Star (Class items)) as r eqn:Er.
  induction H; try discriminate; [reflexivity|].
  injection Er as ->.
  apply matches_Class_inv in H0 as (x & -> & Hx).
  simpl; rewrite Hx; auto.
Qed.

Lemma star_class_intro items w :
  forallb (in_class items) w = true ->
  forall pos post, matches (Star (Class items)) pos w post.
Proof.
  induction w as [|x w IH]; simpl; intros H pos post; [constructor|].
  apply andb_true_iff in H as [Hx Hw].
  change (x :: w) with ([x] ++ w).
  apply MStarCons; [discriminate|now constructor|now apply IH].
Qed.

Lemma plus_class_inv items pos w post :
  matches (Plus (Class items)) pos w post ->
  w <> [] /\ forallb (in_class items) w = true.
Proof.
  intros H; apply matches_Plus_inv in H as (w1 & w2 & -> & H1 & H2).
  apply matches_Class_inv in H1 as (x & -> & Hx).
  apply star_class_inv in H2.
  split; [discriminate|simpl; now rewrite Hx].
Qed.

Lemma plus_class_intro items w :
  w <> [] -> forallb (in_class items) w = true ->
  forall pos post, matches (Plus (Class items)) pos w post.
Proof.
  destruct w as [|x w]; [congruence|]; simpl; intros _ H pos post.
  apply andb_true_iff in H as [Hx Hw].
  change (x :: w) with ([x] ++ w).
  apply MPlus; [now constructor|now apply star_class_intro].
Qed.

Lemma label_class_char (c : ascii) : in_class label_class c = label_char c.
Proof.
  unfold in_class, label_class, label_char, alphanumeric; cbn.
  now rewrite orb_false_r, !orb_assoc.
Qed.

Lemma path_class_char (c : ascii) : in_class path_class c = path_char c.
Proof.
  unfold in_class, path_class, path_char, alphanumeric; cbn.
  now rewrite orb_false_r, !orb_assoc.
Qed.

Lemma forallb_ext_eq {T} (f g : T -> bool) (l : list T) :
  (forall x, f x = g x) -> forallb f l = forallb g l.
Proof. intros E; induction l; simpl; [|rewrite E, IHl]; reflexivity. Qed.

Lemma label_dot_inv pos w post :
  matches label_dot pos w post -> exists l, w = l ++ lit "." /\ label_ok l.
Proof.
  intros H; apply matches_Group_inv, matches_Seq_inv in H
    as (l & d & -> & Hl & Hd).
  apply matches_Lit_inv in Hd as ->.
  apply plus_class_inv in Hl as [Hne Hl].
  exists l; repeat split; auto.
  now rewrite <- (forallb_ext_eq _ _ _ label_class_char).
Qed.

Lemma label_dot_intro l :
  label_ok l -> forall pos post, matches label_dot pos (l ++ lit ".") post.
Proof.
  intros [Hne Hl] pos post.
  apply MGroup, MSeq; [|constructor].
  apply plus_class_intro; auto.
  now rewrite (forallb_ext_eq _ _ _ label_class_char).
Qed.

Lemma star_label_dot_inv pos w post :
  matches (Star label_dot) pos w post ->
  exists labels, w = hostname labels /\ Forall label_ok labels.
Proof.
  intros H; remember (Star label_dot) as r eqn:Er.
  induction H; try discriminate.
  - now exists [].
  - injection Er as ->.
    destruct (IHmatches2 eq_refl) as (labels & -> & Hls).
    apply label_dot_inv in H0 as (l & -> & Hl).
    exists (l :: labels); split; [reflexivity|now constructor].
Qed.

Lemma star_label_dot_intro labels :
  Forall label_ok labels ->
  forall pos post, matches (Star label_dot) pos (hostname labels) post.
Proof.
  induction 1 as [|l labels Hl Hls IH]; intros pos post; [constructor|].
  change (hostname (l :: labels)) with ((l ++ lit ".") ++ hostname labels).
  apply MStarCons; [|now apply label_dot_intro|apply IH].
  destruct l; discriminate.
Qed.

Lemma scheme_inv pos w post :
  matches (Lit (lit "http") >> Opt (Lit (lit "s")) >> Lit (lit "://"))%re
    pos w post ->
  w = lit "http://" \/ w = lit "https://".
Proof.
  intros H.
  apply matches_Seq_inv in H as (w1 & wr & -> & H1 & H).
  apply matches_Seq_inv in H as (w2 & w3 & -> & H2 & H3).
  apply matches_Lit_inv in H1 as ->, H3 as ->.
  apply matches_Opt_inv in H2 as [->|H2]; [now left|].
  apply matches_Lit_inv in H2 as ->; now right.
Qed.

Lemma scheme_intro sch pos post :
  sch = lit "http://" \/ sch = lit "https://" ->
  matches (Lit (lit "http") >> Opt (Lit (lit "s")) >> Lit (lit "://"))%re
    pos sch post.
Proof.
  intros [-> | ->].
  - change (lit "http://") with (lit "http" ++ [] ++ lit "://").
    apply MSeq; [constructor|]; apply MSeq; [apply MOptNone|constructor].
  - change (lit "https://") with (lit "http" ++ lit "s" ++ lit "://").
    apply MSeq; [constructor|];
      apply MSeq; [apply MOptSome|]; constructor.
Qed.

Lemma tld_inv pos w post :
  matches (Alt (Lit (lit "com")) (Alt (Lit (lit "co.uk")) (Lit (lit "org"))))
    pos w post ->
  tld_ok w.
Proof.
  intros H; unfold tld_ok.
  apply matches_Alt_inv in H as [H|H];
    [|apply matches_Alt_inv in H as [H|H]];
    apply matches_Lit_inv in H; auto.
Qed.

Lemma tld_intro tld pos post :
  tld_ok tld ->
  matches (Alt (Lit (lit "com")) (Alt (Lit (lit "co.uk")) (Lit (lit "org"))))
    pos tld post.
Proof.
  intros [-> | [-> | ->]];
    [apply MAltL|apply MAltR, MAltL|apply MAltR, MAltR]; constructor.
Qed.

Lemma path_inv pos w post :
  matches (Opt (Group 4 (Lit (lit "/") >> Star (Class path_class))))%re
    pos w post ->
  path_ok w.
Proof.
  intros H; apply matches_Opt_inv in H as [->|H]; [now left|].
  apply matches_Group_inv, matches_Seq_inv in H as (w1 & q & -> & H1 & H2).
  apply matches_Lit_inv in H1 as ->.
  apply star_class_inv in H2.
  right; exists q; split; [reflexivity|].
  now rewrite <- (forallb_ext_eq _ _ _ path_class_char).
Qed.

Lemma path_intro path pos post :
  path_ok path ->
  matches (Opt (Group 4 (Lit (lit "/") >> Star (Class path_class))))%re
    pos path post.
Proof.
  intros [-> | (q & -> & Hq)]; [apply MOptNone|].
  apply MOptSome, MGroup, MSeq; [constructor|].
  apply star_class_intro.
  now rewrite (forallb_ext_eq _ _ _ path_class_char).
Qed.

(** A match of the whole pattern is a text of the grammar, and the match
    ends where the text ends or just before a final line feed. *)
Lemma validate_pattern_inv w post :
  matches validate_pattern 0 w post ->
  address_grammar w /\ (post = [] \/ post = [LF]).
Proof.
  unfold validate_pattern; intros H.
  apply matches_Seq_inv in H as (w0 & wa & -> & H0 & H).
  apply matches_Bol_inv in H0 as ->.
  apply matches_Seq_inv in H as (sch & wb & -> & Hsch & H).
  apply matches_Seq_inv in H as (host & wc & -> & Hhost & H).
  apply matches_Seq_inv in H as (tld & wd & -> & Htld & H).
  apply matches_Seq_inv in H as (path & we & -> & Hpath & H).
  apply matches_Eol_inv in H as [-> Hpost].
  split; [|exact Hpost].
  apply matches_Plus_inv in Hhost as (ld & rest & -> & Hld & Hrest).
  apply label_dot_inv in Hld as (l & -> & Hl).
  apply star_label_dot_inv in Hrest as (labels & -> & Hlabels).
  apply matches_Group_inv, tld_inv in Htld.
  apply path_inv in Hpath.
  exists sch, (l :: labels), tld, path.
  repeat split; auto; try discriminate.
  - cbn [app]; now rewrite app_nil_r.
  - apply matches_Opt_inv in Hsch as [->|Hsch]; [now left|].
    apply matches_Group_inv, scheme_inv in Hsch; right; exact Hsch.
Qed.

Lemma validate_pattern_intro g post :
  address_grammar g -> post = [] \/ post = [LF] ->
  matches validate_pattern 0 g post.
Proof.
  intros (sch & labels & tld & path & -> & Hsch & Hne & Hlabels & Htld & Hpath)
    Hpost.
  unfold validate_pattern.
  change (sch ++ hostname labels ++ tld ++ path)
    with ([] ++ sch ++ hostname labels ++ tld ++ path).
  apply MSeq; [constructor|].
  apply MSeq.
  { destruct Hsch as [->|Hsch]; [apply MOptNone|].
    now apply MOptSome, MGroup, scheme_intro. }
  apply MSeq.
  { destruct labels as [|l labels]; [congruence|].
    inversion Hlabels; subst.
    change (hostname (l :: labels)) with ((l ++ lit ".") ++ hostname labels).
    apply MPlus; [now apply label_dot_intro|now apply star_label_dot_intro]. }
  apply MSeq; [now apply MGroup, tld_intro|].
  rewrite <- (app_nil_r path).
  apply MSeq; [now apply path_intro|now constructor].
Qed.

(** [validate_input] accepts the texts of the grammar, and those texts
    followed by one line feed (Python's [$] also matches just before a
    final line feed). *)
Lemma validate_input_accepts (s : str) :
  matched (validate_input s) = true <->
  exists g, address_grammar g /\ (s = g \/ s = g ++ [LF]).
Proof.
  unfold validate_input; rewrite re_match_matches; split.
  - intros (w & post & -> & H).
    apply validate_pattern_inv in H as [Hg [-> | ->]]; exists w; split; auto.
    left; now rewrite app_nil_r.
  - intros (g & Hg & [-> | ->]).
    + exists g, []; split; [now rewrite app_nil_r|].
      apply validate_pattern_intro; auto.
    + exists g, [LF]; split; [reflexivity|].
      apply validate_pattern_intro; auto.
Qed.

Lemma grammar_validates (s : str) :
  address_grammar s -> matched (validate_input s) = true.
Proof. intros H; apply validate_input_accepts; eauto. Qed.

End ValidateFacts.

(** ** Stripping and splitting *)

Section StripFacts.
Variable f : ascii -> bool.

Lemma lstrip_by_spec (s : str) :
  exists l, s = l ++ lstrip_by f s /\ forallb f l = true /\
            (forall x b, lstrip_by f s = x :: b -> f x = false).
Proof.
  induction s as [|c s (l & E & Hl & Hx)]; simpl.
  - exists []; repeat split; auto; discriminate.
  - destruct (f c) eqn:Ec.
    + exists (c :: l); simpl; rewrite Ec, Hl, <- E; auto.
    + exists []; repeat split; auto; intros x b [= <- _]; exact Ec.
Qed.

Lemma lstrip_by_fixed (s : str) :
  (forall x b, s = x :: b -> f x = false) -> lstrip_by f s = s.
Proof.
  destruct s as [|c s]; simpl; intros H; [reflexivity|].
  now rewrite (H c s eq_refl).
Qed.

Lemma lstrip_by_app (u v : str) :
  existsb (fun c => negb (f c)) u = true ->
  lstrip_by f (u ++ v) = lstrip_by f u ++ v.
Proof.
  induction u as [|c u IH]; simpl; [discriminate|].
  destruct (f c); simpl; auto.
Qed.

Lemma forallb_rev (l : str) : forallb f (rev l) = forallb f l.
Proof.
  destruct (forallb f l) eqn:E.
  - rewrite forallb_forall in *; intros x Hx; apply E; now apply in_rev.
  - destruct (forallb f (rev l)) eqn:E'; [|reflexivity].
    rewrite <- E; symmetry; rewrite forallb_forall in *.
    intros x Hx; apply E'; now apply in_rev in Hx.
Qed.

Lemma existsb_rev (g : ascii -> bool) (l : str) :
  existsb g l = true -> existsb g (rev l) = true.
Proof.
  rewrite !existsb_exists; intros (x & Hx & Hg); exists x; split; auto.
  now apply in_rev in Hx.
Qed.

Lemma rstrip_by_spec (s : str) :
  exists t, s = rstrip_by f s ++ t /\ forallb f t = true /\
            (forall a x, rstrip_by f s = a ++ [x] -> f x = false).
Proof.
  unfold rstrip_by.
  destruct (lstrip_by_spec (rev s)) as (l & E & Hl & Hx).
  exists (rev l); repeat split.
  - rewrite <- rev_app_distr, <- E; now rewrite rev_involutive.
  - now rewrite forallb_rev.
  - intros a x Ea; apply (Hx x (rev a)).
    apply (f_equal (@rev ascii)) in Ea.
    now rewrite rev_involutive, rev_app_distr in Ea.
Qed.

Lemma rstrip_by_fixed (s : str) :
  (forall a x, s = a ++ [x] -> f x = false) -> rstrip_by f s = s.
Proof.
  intros H; unfold rstrip_by; rewrite lstrip_by_fixed.
  - apply rev_involutive.
  - intros x b E; apply (H (rev b) x).
    apply (f_equal (@rev ascii)) in E.
    now rewrite rev_involutive in E.
Qed.

Lemma rstrip_by_app (u v : str) :
  existsb (fun c => negb (f c)) v = true ->
  rstrip_by f (u ++ v) = u ++ rstrip_by f v.
Proof.
  intros H; unfold rstrip_by.
  rewrite rev_app_distr, lstrip_by_app by now apply existsb_rev.
  now rewrite rev_app_distr, rev_involutive.
Qed.

Lemma strip_by_spec (s : str) :
  exists l t, s = l ++ strip_by f s ++ t /\
              forallb f l = true /\ forallb f t = true /\
              trimmed f (strip_by f s).
Proof.
  unfold strip_by.
  destruct (lstrip_by_spec s) as (l & El & Hl & Hx).
  destruct (rstrip_by_spec (lstrip_by f s)) as (t & Et & Ht & Hy).
  exists l, t; repeat split; auto.
  - now rewrite <- Et.
  - intros x b E; apply (Hx x (b ++ t)).
    rewrite Et at 1; now rewrite E.
Qed.

Lemma strip_by_fixed (n : str) : trimmed f n -> strip_by f n = n.
Proof.
  intros [Hh Hl]; unfold strip_by.
  rewrite lstrip_by_fixed by assumption.
  now apply rstrip_by_fixed.
Qed.

Lemma strip_by_In (s : str) (c : ascii) : In c (strip_by f s) -> In c s.
Proof.
  destruct (strip_by_spec s) as (l & t & E & _).
  intros H; rewrite E, !in_app_iff; auto.
Qed.

End StripFacts.

Lemma in_chars_slash (c : ascii) :
  in_chars (lit "/") c = true <-> c = "/"%char.
Proof.
  unfold in_chars; simpl; rewrite orb_false_r.
  destruct (Ascii.eqb_spec c "/"); split; congruence.
Qed.

Lemma in_chars_slash_false (c : ascii) :
  in_chars (lit "/") c = false <-> c <> "/"%char.
Proof.
  rewrite <- in_chars_slash; destruct (in_chars (lit "/") c); split; congruence.
Qed.

Lemma split1_spec (sep : ascii) (n : str) :
  (~ In sep n /\ split1 sep n = [n]) \/
  (exists a b, n = a ++ sep :: b /\ ~ In sep a /\ split1 sep n = [a; b]).
Proof.
  induction n as [|c n IH]; simpl.
  - left; auto.
  - destruct (Ascii.eqb_spec c sep) as [->|Hne].
    + right; exists [], n; auto.
    + destruct IH as [[Hn ->] | (a & b & -> & Ha & ->)].
      * left; split; [intros [?|?]; congruence|reflexivity].
      * right; exists (c :: a), b; repeat split; auto.
        intros [?|?]; congruence.
Qed.

(** ** What [parse_input] computes *)

Module ParseFacts.

Lemma parse_input_cases (s : str) :
  (~ In "/"%char (normalised s) /\ parse_input s = (normalised s, [])) \/
  (exists a b, normalised s = a ++ "/"%char :: b /\ ~ In "/"%char a /\
               parse_input s = (a, b)).
Proof.
  unfold parse_input; fold http https; fold (normalised s).
  destruct (split1_spec "/" (normalised s)) as [[H E] | (a & b & E1 & Ha & E)];
    cbv zeta; rewrite E; [left|right; exists a, b]; auto.
Qed.

Lemma slashes_forallb (l : str) :
  forallb (in_chars (lit "/")) l = true -> slashes l.
Proof.
  unfold slashes; rewrite forallb_forall, Forall_forall.
  intros H x Hx; symmetry; now apply in_chars_slash, H.
Qed.

Lemma trimmed_no_edge_slash (n : str) :
  trimmed (in_chars (lit "/")) n <-> no_edge_slash n.
Proof.
  unfold trimmed, no_edge_slash; split; intros [Hh Hl]; split; intros;
    try (apply in_chars_slash_false; eauto);
    apply in_chars_slash_false; eauto.
Qed.

Lemma normalised_trimmed (s : str) : no_edge_slash (normalised s).
Proof.
  apply trimmed_no_edge_slash; unfold normalised, strip.
  destruct (strip_by_spec (in_chars (lit "/"))
              (replace https (lit "") (replace http (lit "") s)))
    as (l & t & _ & _ & _ & H); exact H.
Qed.

Lemma strip_slash_stripped (s : str) : slash_stripped s (strip (lit "/") s).
Proof.
  destruct (strip_by_spec (in_chars (lit "/")) s) as (l & t & E & Hl & Ht & Hn).
  exists l, t; repeat split; auto using slashes_forallb;
    now apply trimmed_no_edge_slash.
Qed.

Lemma parse_input_split (s : str) :
  split_at_first_slash (normalised s) (fst (parse_input s)) (snd (parse_input s)).
Proof.
  destruct (parse_input_cases s) as [[H ->] | (a & b & E & Ha & ->)]; simpl.
  - left; auto.
  - right; auto.
Qed.

(** The two parts put together again are the text that was split. *)
Lemma parse_input_rejoin (s : str) :
  Virtual_Address (fst (parse_input s)) (snd (parse_input s)) = normalised s.
Proof.
  destruct (parse_input_cases s) as [[H ->] | (a & b & E & Ha & ->)]; simpl.
  - reflexivity.
  - destruct b as [|c b]; [|now rewrite E].
    exfalso; apply (proj2 (normalised_trimmed s) a "/"%char); auto.
Qed.

Lemma http_nonempty : http <> [].
Proof. discriminate. Qed.

Lemma https_nonempty : https <> [].
Proof. discriminate. Qed.

Lemma replace_schemes (sch body : str) :
  scheme_ok sch -> ~ occurs http body -> ~ occurs https body ->
  replace https (lit "") (replace http (lit "") (sch ++ body)) = body.
Proof.
  intros Hs H1 H2.
  pose proof (replace_absent (lit "") http_nonempty H1) as E1.
  pose proof (replace_absent (lit "") https_nonempty H2) as E2.
  destruct Hs as [-> | [-> | ->]].
  - change (lit "" ++ body) with body; now rewrite E1, E2.
  - fold http; rewrite replace_leading by apply http_nonempty.
    change (lit "" ++ replace http (lit "") body)
      with (replace http (lit "") body).
    now rewrite E1, E2.
  - assert (E : replace http (lit "") (lit "https://" ++ body)
                = lit "https://" ++ body).
    { unfold replace, http; cbn.
      repeat f_equal; exact (replace_from_absent (lit "") H1). }
    rewrite E; fold https; rewrite replace_leading by apply https_nonempty.
    change (lit "" ++ replace https (lit "") body)
      with (replace https (lit "") body).
    exact E2.
Qed.

Lemma parse_input_parses (sch body : str) :
  scheme_ok sch -> ~ occurs http body -> ~ occurs https body ->
  parses_to body (fst (parse_input (sch ++ body)))
                 (snd (parse_input (sch ++ body))).
Proof.
  intros Hs H1 H2.
  pose proof (parse_input_split (sch ++ body)) as Hsplit.
  pose proof (normalised_trimmed (sch ++ body)) as Htrim.
  unfold normalised in *; rewrite replace_schemes in * by assumption.
  exists (strip (lit "/") body); split; [|exact Hsplit].
  now apply strip_slash_stripped.
Qed.

End ParseFacts.

(** ** The characters of an address *)

Module GrammarFacts.
Import ValidateFacts ParseFacts.

Lemma label_char_body (c : ascii) : label_char c = true -> body_char c = true.
Proof.
  unfold body_char, path_char, label_char; intros ->; reflexivity.
Qed.

Lemma path_char_body (c : ascii) : path_char c = true -> body_char c = true.
Proof. unfold body_char; intros ->; reflexivity. Qed.

Lemma label_char_not_slash (c : ascii) :
  label_char c = true -> c <> "/"%char.
Proof. intros H ->; discriminate H. Qed.

Lemma body_char_not_colon (c : ascii) : body_char c = true -> c <> ":"%char.
Proof. intros H ->; discriminate H. Qed.

Lemma body_char_not_LF (c : ascii) : body_char c = true -> c <> LF.
Proof. intros H ->; discriminate H. Qed.

Lemma forallb_impl (f g : ascii -> bool) (l : str) :
  (forall c, f c = true -> g c = true) ->
  forallb f l = true -> forallb g l = true.
Proof. rewrite !forallb_forall; auto. Qed.

Lemma hostname_chars (labels : list str) :
  Forall label_ok labels -> forallb body_char (hostname labels) = true.
Proof.
  induction 1 as [|l labels [_ Hl] _ IH]; [reflexivity|].
  change (hostname (l :: labels)) with ((l ++ lit ".") ++ hostname labels).
  rewrite !forallb_app, IH, (forallb_impl _ _ _ label_char_body Hl).
  reflexivity.
Qed.

Lemma tld_chars (tld : str) : tld_ok tld -> forallb body_char tld = true.
Proof. intros [-> | [-> | ->]]; reflexivity. Qed.

Lemma path_chars (path : str) : path_ok path -> forallb body_char path = true.
Proof.
  intros [-> | (q & -> & Hq)]; [reflexivity|].
  simpl; apply (forallb_impl _ _ _ path_char_body Hq).
Qed.

(** A text of the grammar is a scheme and a body; the body begins with a
    label character and has body characters only. *)
Lemma grammar_body (s : str) :
  address_grammar s ->
  exists sch body x b,
    s = sch ++ body /\ scheme_ok sch /\ body = x :: b /\
    label_char x = true /\ forallb body_char body = true.
Proof.
  intros (sch & labels & tld & path & -> & Hsch & Hne & Hls & Htld & Hpath).
  assert (Hc : forallb body_char (hostname labels ++ tld ++ path) = true).
  { now rewrite !forallb_app, hostname_chars, tld_chars, path_chars. }
  destruct labels as [|l labels]; [congruence|].
  inversion Hls as [|? ? [Hl Hlc]]; subst.
  destruct l as [|x l]; [congruence|].
  simpl in Hlc; apply andb_true_iff in Hlc as [Hx _].
  exists sch, (hostname ((x :: l) :: labels) ++ tld ++ path), x,
    ((l ++ lit ".") ++ hostname labels ++ tld ++ path).
  repeat split; auto.
  cbn [hostname map List.concat app]; now rewrite <- !app_assoc.
Qed.

Lemma body_no_scheme (p body : str) :
  In ":"%char p -> forallb body_char body = true -> ~ occurs p body.
Proof.
  intros Hp Hb Ho.
  apply (occurs_In _ Hp) in Ho.
  rewrite forallb_forall in Hb.
  now apply (body_char_not_colon (Hb _ Ho)).
Qed.

Lemma body_no_http (body : str) :
  forallb body_char body = true -> ~ occurs http body.
Proof. apply body_no_scheme; simpl; tauto. Qed.

Lemma body_no_https (body : str) :
  forallb body_char body = true -> ~ occurs https body.
Proof. apply body_no_scheme; simpl; tauto. Qed.

(** Every character of a text of the grammar is a body character or the
    colon of the scheme; a line feed is neither. *)
Lemma grammar_no_LF (s : str) : address_grammar s -> ~ In LF s.
Proof.
  intros H; apply grammar_body in H
    as (sch & body & x & b & -> & Hsch & _ & _ & Hb).
  rewrite in_app_iff; intros [Hin|Hin].
  - destruct Hsch as [-> | [-> | ->]]; simpl in Hin;
      repeat (destruct Hin as [Hin|Hin]; [discriminate Hin|]); exact Hin.
  - rewrite forallb_forall in Hb.
    now apply (body_char_not_LF (Hb _ Hin)).
Qed.

End GrammarFacts.

(** ** Validation against the grammar *)

Section Validation.
Import ValidateFacts ParseFacts GrammarFacts.

Example validate_rejects_empty : validate_input (lit "") = None.
Proof. reflexivity. Qed.

Example validate_rejects_net : validate_input (lit "example.net") = None.
Proof. reflexivity. Qed.

Example validate_rejects_missing_host : validate_input (lit ".com") = None.
Proof. reflexivity. Qed.

Example validate_rejects_space : validate_input (lit "not a domain") = None.
Proof. reflexivity. Qed.

Example validate_rejects_other_scheme :
  validate_input (lit "ftp://example.com") = None.
Proof. reflexivity. Qed.

(** Apart from a final line feed, [validate_input] accepts the grammar and
    nothing else. *)
Lemma validate_input_without_LF (s : str) :
  ~ In LF s -> (matched (validate_input s) = true <-> address_grammar s).
Proof.
  intros Hs; rewrite validate_input_accepts; split.
  - intros (g & Hg & [-> | ->]); [assumption|].
    exfalso; apply Hs; rewrite in_app_iff; simpl; auto.
  - eauto.
Qed.

(** C4 as it is worded fails for a text that ends with a line feed: the
    text [example.com] followed by a line feed is not in the address
    grammar (a line feed is no character of it), and [validate_input]
    accepts it, because [$] in the pattern also matches just before a
    final line feed. *)
Theorem validate_input_accepts_final_line_feed :
  matched (validate_input (lit "example.com" ++ [LF])) = true /\
  ~ address_grammar (lit "example.com" ++ [LF]).
Proof.
  split; [reflexivity|].
  intros H; apply grammar_no_LF in H; apply H.
  rewrite in_app_iff; simpl; auto.
Qed.

(** C4, amended: for every input that does not end with a line feed,
    [validate_input] returns a match if and only if the input is a text
    of the address grammar; every such input outside the grammar (the
    empty text, a text with another top-level name, without a host or
    with a character that is not allowed) gets [None]. *)
Theorem validate_input_grammar (s : str) :
  (forall a, s <> a ++ [LF]) ->
  (matched (validate_input s) = true <-> address_grammar s) /\
  (~ address_grammar s -> validate_input s = None).
Proof.
  intros Hs.
  assert (H : matched (validate_input s) = true <-> address_grammar s).
  { rewrite validate_input_accepts; split.
    - intros (g & Hg & [-> | E]); [assumption|].
      now apply Hs in E.
    - eauto. }
  split; [exact H|].
  intros Hn; destruct (validate_input s) as [m|]; [|reflexivity].
  exfalso; apply Hn, H; reflexivity.
Qed.

Lemma validate_input_grammar_witness :
  address_grammar (lit "https://shop.example.co.uk/a_b/") /\
  ~ address_grammar (lit "example.net") /\
  ~ address_grammar (lit "").
Proof.
  assert (H1 : forall a, lit "https://shop.example.co.uk/a_b/" <> a ++ [LF]).
  { intros a E; apply (f_equal (@rev ascii)) in E.
    rewrite rev_app_distr in E; discriminate E. }
  assert (H2 : forall a, lit "example.net" <> a ++ [LF]).
  { intros a E; apply (f_equal (@rev ascii)) in E.
    rewrite rev_app_distr in E; discriminate E. }
  assert (H3 : forall a, lit "" <> a ++ [LF])
    by (intros a E; destruct a; discriminate E).
  split; [exact (proj1 (proj1 (validate_input_grammar H1)) eq_refl)|].
  split; intros G.
  - pose proof (proj2 (proj1 (validate_input_grammar H2)) G) as E.
    discriminate E.
  - pose proof (proj2 (proj1 (validate_input_grammar H3)) G) as E.
    discriminate E.
Defined.

End Validation.

(** ** Round trip through [parse_input] *)

Section RoundTrip.
Import ValidateFacts ParseFacts GrammarFacts.

Lemma parse_input_normalised (a b : str) :
  normalised a = normalised b -> parse_input a = parse_input b.
Proof.
  unfold parse_input; fold http https; fold (normalised a) (normalised b).
  now intros ->.
Qed.

Lemma slashes_head (t b : str) (x : ascii) :
  slashes t -> x <> "/"%char -> forall l, l ++ t <> [] ->
  l ++ t = x :: b -> exists l', l = x :: l'.
Proof.
  intros Ht Hx [|y l] Hne E; simpl in *.
  - destruct t as [|y t]; [congruence|].
    inversion Ht; subst; congruence.
  - injection E as -> _; eauto.
Qed.

(** C9: every text [s] of the address grammar is accepted by
    [validate_input], and [parse_input s] gives a domain and a subpath
    that, joined again with a slash (no slash for an empty subpath), are
    [s] without its scheme and its trailing slashes; parsing the joined
    text gives the same domain and subpath again. *)
Theorem grammar_round_trip (s : str) (H : address_grammar s) :
  matched (validate_input s) = true /\
  fst (parse_input s) <> [] /\
  (exists sch t,
     scheme_ok sch /\ slashes t /\
     s = sch ++ rejoin (fst (parse_input s)) (snd (parse_input s)) ++ t) /\
  parse_input (rejoin (fst (parse_input s)) (snd (parse_input s)))
  = parse_input s.
Proof.
  change rejoin with Virtual_Address.
  split; [now apply grammar_validates|].
  destruct (grammar_body H) as (sch & body & x & b & -> & Hsch & Eb & Hx & Hb).
  pose proof (body_no_http Hb) as H1.
  pose proof (body_no_https Hb) as H2.
  pose proof (parse_input_rejoin (sch ++ body)) as Ejoin.
  pose proof (parse_input_split (sch ++ body)) as Hsplit.
  pose proof (normalised_trimmed (sch ++ body)) as Htrim.
  assert (En : normalised (sch ++ body) = strip (lit "/") body).
  { unfold normalised; now rewrite replace_schemes. }
  destruct (strip_by_spec (in_chars (lit "/")) body)
    as (l & t & E & Hl & Ht & _).
  fold (strip (lit "/") body) in E; rewrite <- En in E.
  set (n := normalised (sch ++ body)) in *.
  (* nothing is stripped in front: the body begins with a label character *)
  assert (l = []) as ->.
  { destruct l as [|y l]; [reflexivity|].
    rewrite Eb in E; simpl in E, Hl; injection E as <- _.
    apply andb_true_iff in Hl as [Hy _]; apply in_chars_slash in Hy.
    now apply label_char_not_slash in Hx. }
  simpl in E.
  assert (Hn : exists n', n = x :: n').
  { apply (@slashes_head t b x (slashes_forallb _ Ht)
             (label_char_not_slash Hx)).
    - rewrite <- E, Eb; discriminate.
    - now rewrite <- E. }
  destruct Hn as [n' En'].
  repeat split.
  - destruct Hsplit as [(_ & -> & _) | (Hd & Esplit)]; [now rewrite En'|].
    intros Ed; rewrite Ed, En' in Esplit; simpl in Esplit.
    injection Esplit as -> _.
    now apply label_char_not_slash in Hx.
  - exists sch, t; rewrite Ejoin; repeat split; auto using slashes_forallb.
    now rewrite <- E.
  - apply parse_input_normalised; rewrite Ejoin.
    assert (Hnb : forallb body_char n = true).
    { rewrite forallb_forall in *; intros c Hc; apply Hb.
      rewrite E, in_app_iff; auto. }
    unfold normalised at 1.
    change n with (lit "" ++ n) at 1.
    rewrite replace_schemes;
      [|now left|now apply body_no_http|now apply body_no_https].
    apply strip_by_fixed, trimmed_no_edge_slash, Htrim.
Qed.

Lemma grammar_round_trip_witness :
  address_grammar (lit "https://example.com/foo/bar/") /\
  parse_input (lit "https://example.com/foo/bar/") = (lit "example.com", lit "foo/bar") /\
  parse_input (lit "example.com/foo/bar") = parse_input (lit "https://example.com/foo/bar/").
Proof.
  assert (G : address_grammar (lit "https://example.com/foo/bar/")).
  { exists (lit "https://"), [lit "example"], (lit "com"), (lit "/foo/bar/").
    repeat split; auto; try discriminate.
    - right; right; reflexivity.
    - repeat constructor; discriminate.
    - left; reflexivity.
    - right; exists (lit "foo/bar/"); split; reflexivity. }
  split; [exact G|]; split; [reflexivity|].
  exact (proj2 (proj2 (proj2 (grammar_round_trip G)))).
Defined.

End RoundTrip.

(** ** [parse_input] and the scheme *)

Section ParseScheme.
Import ValidateFacts ParseFacts GrammarFacts.

Lemma not_occurs_by_char (p body : str) (c : ascii) :
  In c p -> ~ In c body -> ~ occurs p body.
Proof. intros Hp Hb Ho; apply Hb, (occurs_In _ Hp Ho). Qed.

Lemma validated_scheme_only_in_front (s : str) :
  matched (validate_input s) = true -> scheme_only_in_front s.
Proof.
  intros H; apply validate_input_accepts in H as (g & Hg & Hs).
  apply grammar_body in Hg as (sch & body & x & b & -> & Hsch & _ & _ & Hb).
  assert (Hc : ~ In ":"%char body).
  { intros Hin; rewrite forallb_forall in Hb.
    now apply (body_char_not_colon (Hb _ Hin)). }
  destruct Hs as [-> | ->].
  - exists sch, body; repeat split; auto;
      apply (@not_occurs_by_char _ _ ":"%char); simpl; tauto.
  - exists sch, (body ++ [LF]); rewrite <- app_assoc; repeat split; auto;
      apply (@not_occurs_by_char _ _ ":"%char); simpl; try tauto;
      rewrite in_app_iff; simpl; intros [?|[?|[]]]; auto; discriminate.
Qed.

Lemma scheme_in_front_removed (sch body : str) :
  scheme_ok sch ->
  ~ occurs (lit "http://") body -> ~ occurs (lit "https://") body ->
  leading_scheme_removed (sch ++ body) body.
Proof.
  intros [-> | [-> | ->]] H1 H2; [right; right|left|right; left]; auto.
  change (lit "" ++ body) with body; repeat split.
  - destruct (startswith (lit "http://") body) eqn:E; [|reflexivity].
    destruct (startswith_true _ _ E) as [t ->].
    exfalso; apply H1; now exists [], t.
  - destruct (startswith (lit "https://") body) eqn:E; [|reflexivity].
    destruct (startswith_true _ _ E) as [t ->].
    exfalso; apply H2; now exists [], t.
Qed.

(** C5 as it is worded fails: for [example.com/http://foo] the code
    returns the subpath [foo], having removed the scheme text from the
    middle of the input as well. *)
Lemma parse_input_removes_inner_scheme :
  ~ (forall s, parse_strips_leading_scheme_only s).
Proof.
  intros H; specialize (H (lit "example.com/http://foo")).
  destruct H as (body & Hbody & n & (l & t & E & Hl & _ & _) & Hsplit).
  assert (Ep : parse_input (lit "example.com/http://foo")
               = (lit "example.com", lit "foo")) by reflexivity.
  rewrite Ep in Hsplit; simpl fst in Hsplit; simpl snd in Hsplit.
  destruct Hbody as [Hb | [Hb | (<- & _)]]; try discriminate Hb.
  destruct Hsplit as [(_ & _ & Hp) | (_ & ->)]; [discriminate Hp|].
  destruct l as [|y l].
  - simpl in E; discriminate E.
  - inversion Hl; subst; discriminate E.
Qed.

(** C5, amended: for every input in which the scheme texts [http://] and
    [https://] occur at most once and in front -- every input that
    [validate_input] accepts is one -- [parse_input] removes that leading
    scheme and nothing else, removes the slashes at the two ends, and
    splits what is left at its first slash: the domain has no slash, the
    subpath is everything behind the first slash, and is empty when there
    is no slash.  [parse_input] is a function of its argument alone. *)
Theorem parse_input_scheme_in_front :
  (forall s, scheme_only_in_front s -> parse_strips_leading_scheme_only s) /\
  (forall s, matched (validate_input s) = true -> scheme_only_in_front s).
Proof.
  split; [|exact validated_scheme_only_in_front].
  intros s (sch & body & -> & Hsch & H1 & H2).
  exists body; split.
  - now apply scheme_in_front_removed.
  - now apply parse_input_parses.
Qed.

Lemma parse_input_scheme_in_front_witness :
  scheme_only_in_front (lit "https://example.com/a/b/c") /\
  parse_strips_leading_scheme_only (lit "https://example.com/a/b/c") /\
  parse_input (lit "https://example.com/a/b/c") = (lit "example.com", lit "a/b/c").
Proof.
  assert (S : scheme_only_in_front (lit "https://example.com/a/b/c")).
  { exists (lit "https://"), (lit "example.com/a/b/c").
    repeat split.
    - right; right; reflexivity.
    - intros H; apply contains_occurs in H; discriminate H.
    - intros H; apply contains_occurs in H; discriminate H. }
  split; [exact S|]; split; [|reflexivity].
  exact (proj1 parse_input_scheme_in_front _ S).
Defined.

End ParseScheme.

(** ** The navigation hook *)

Module NavigationFacts.
Import ReFacts.

Lemma first_line_length (s : str) :
  firstn (List.length (first_line s)) s = first_line s.
Proof.
  induction s as [|c s IH]; simpl; [reflexivity|].
  destruct (Ascii.eqb c LF); simpl; [reflexivity|now rewrite IH].
Qed.

Lemma first_line_all (s : str) : ~ In LF s -> first_line s = s.
Proof.
  induction s as [|c s IH]; simpl; intros H; [reflexivity|].
  destruct (Ascii.eqb_spec c LF) as [->|_]; [tauto|].
  rewrite IH; tauto.
Qed.

(** With a continuation that never fails, greedy repetition of [.] runs
    to the end of the line. *)
Lemma repeat_dot_line {A} (k : cont A) :
  (forall p s c, k p s c <> None) ->
  forall fuel pos s c,
    List.length s <= fuel ->
    repeat_greedy (run Dot) fuel pos s c k
    = k (pos + List.length (first_line s))
        (skipn (List.length (first_line s)) s) c.
Proof.
  intros Hk fuel; induction fuel as [|f IH]; intros pos s c Hlen.
  - destruct s; [|simpl in Hlen; lia].
    simpl; now rewrite Nat.add_0_r.
  - destruct s as [|x t]; simpl.
    + now rewrite Nat.add_0_r.
    + destruct (Ascii.eqb x LF); simpl.
      * now rewrite Nat.add_0_r.
      * destruct (Nat.ltb_spec (List.length t) (S (List.length t))); [|lia].
        simpl in Hlen; rewrite IH by lia.
        rewrite Nat.add_succ_r; cbn [Nat.add].
        destruct (k (S (pos + List.length (first_line t)))
                    (skipn (List.length (first_line t)) t) c) eqn:E;
          [reflexivity|].
        now apply Hk in E.
Qed.

Lemma group_plus_dot (pos : nat) (r : str) (c : captures) :
  run (Group 1 (Plus Dot)) pos r c (fun _ _ c' => Some c')
  = match first_line r with
    | [] => None
    | _ :: _ => Some ((1, first_line r) :: c)
    end.
Proof.
  destruct r as [|x t]; [reflexivity|].
  change (run (Group 1 (Plus Dot)) pos (x :: t) c (fun _ _ c' => Some c'))
    with (if Ascii.eqb x LF then None
          else repeat_greedy (run Dot) (List.length t) (S pos) t c
                 (fun p' _ c' => Some ((1, firstn (p' - pos) (x :: t)) :: c'))).
  cbn [first_line]; destruct (Ascii.eqb x LF); [reflexivity|].
  rewrite repeat_dot_line by (auto; discriminate).
  replace (S pos + List.length (first_line t) - pos)
    with (S (List.length (first_line t))) by lia.
  cbn [firstn]; now rewrite first_line_length.
Qed.

Lemma strip_prefix_app_split (a b s : str) :
  strip_prefix (a ++ b) s
  = match strip_prefix a s with
    | Some t => strip_prefix b t
    | None => None
    end.
Proof.
  revert s; induction a as [|x a IH]; intros s; simpl; [reflexivity|].
  destruct s as [|y s]; [reflexivity|].
  destruct (Ascii.eqb x y); auto.
Qed.

(** [re.match] of the hook's pattern: the scheme goes, group 1 is the rest
    of the first line, and there is no match when that is empty. *)
Lemma navigation_match (url : str) :
  re_match navigation_pattern url
  = match after_scheme url with
    | Some r =>
        match first_line r with
        | [] => None
        | _ :: _ => Some [(1, first_line r)]
        end
    | None => None
    end.
Proof.
  unfold re_match, navigation_pattern, after_scheme.
  change (lit "https://") with (lit "http" ++ lit "s" ++ lit "://").
  change (lit "http://") with (lit "http" ++ lit "://").
  rewrite !strip_prefix_app_split.
  cbn [run].
  destruct (strip_prefix (lit "http") url) as [t|]; [|reflexivity].
  rewrite strip_prefix_app_split.
  destruct (strip_prefix (lit "s") t) as [t'|] eqn:Es.
  - apply strip_prefix_Some in Es as ->.
    change (strip_prefix (lit "://") (lit "s" ++ t')) with (@None str).
    destruct (strip_prefix (lit "://") t') as [r|]; [|reflexivity].
    pose proof (group_plus_dot
                  (0 + List.length (lit "http") + List.length (lit "s")
                   + List.length (lit "://")) r []) as E.
    cbn [run] in E; rewrite E.
    destruct (first_line r); reflexivity.
  - cbn [orelse].
    destruct (strip_prefix (lit "://") t) as [r|]; [|reflexivity].
    pose proof (group_plus_dot
                  (0 + List.length (lit "http") + List.length (lit "://"))
                  r []) as E.
    cbn [run] in E; exact E.
Qed.

Lemma GITHUB_BASE_host : GITHUB_BASE = static_host ++ lit "/".
Proof. reflexivity. Qed.

(** What both the hook and [load_page] build from a parsed address. *)
Lemma rewritten_pair (domain subpath : str) :
  (if nonempty subpath
   then (GITHUB_BASE ++ domain ++ lit "/" ++ subpath ++ lit ".html",
         domain ++ lit "/" ++ subpath)
   else (GITHUB_BASE ++ domain ++ lit "/index.html", domain))
  = (Rewritten_Target domain subpath, Virtual_Address domain subpath).
Proof.
  rewrite GITHUB_BASE_host.
  destruct subpath; simpl nonempty; unfold Rewritten_Target, Virtual_Address;
    now rewrite <- app_assoc.
Qed.

Lemma Rewritten_Target_under_host (domain subpath : str) :
  startswith GITHUB_BASE (Rewritten_Target domain subpath) = true.
Proof.
  rewrite GITHUB_BASE_host.
  destruct subpath; unfold Rewritten_Target; rewrite app_assoc;
    apply startswith_app.
Qed.

Lemma acceptNavigationRequest_redirect (rest : str) (t : BrowserTab) :
  (let (domain, subpath) := parse_input rest in
   let (new_url, virtual) :=
     if nonempty subpath
     then (GITHUB_BASE ++ domain ++ lit "/" ++ subpath ++ lit ".html",
           domain ++ lit "/" ++ subpath)
     else (GITHUB_BASE ++ domain ++ lit "/index.html", domain) in
   set_virtual_url virtual ;; setUrl new_url ;; ret false) t
  = (false,
     redirected (Rewritten_Target (fst (parse_input rest)) (snd (parse_input rest)))
                (Virtual_Address (fst (parse_input rest)) (snd (parse_input rest)))
                t).
Proof.
  destruct (parse_input rest) as [domain subpath]; rewrite rewritten_pair.
  unfold redirected, bind, set_virtual_url, setUrl, ret; simpl.
  now rewrite <- app_assoc.
Qed.

Lemma after_scheme_In (url r : str) (c : ascii) :
  after_scheme url = Some r -> In c r -> In c url.
Proof.
  unfold after_scheme; intros E Hin.
  destruct (strip_prefix (lit "https://") url) as [r'|] eqn:E'.
  - injection E as ->; apply strip_prefix_Some in E' as ->.
    rewrite in_app_iff; auto.
  - apply strip_prefix_Some in E as ->; rewrite in_app_iff; auto.
Qed.

(** Whatever the target, the hook accepts a target under the host, or
    refuses, or refuses and redirects to a rewritten target. *)
Lemma hook_outcomes (url : str) (t : BrowserTab) :
  (startswith GITHUB_BASE url = true /\
   acceptNavigationRequest url t = (true, t)) \/
  acceptNavigationRequest url t = (false, t) \/
  (exists domain subpath,
     acceptNavigationRequest url t
     = (false, redirected (Rewritten_Target domain subpath)
                          (Virtual_Address domain subpath) t)).
Proof.
  unfold acceptNavigationRequest.
  destruct (startswith GITHUB_BASE url); [left; auto|right].
  destruct (re_match navigation_pattern url) as [m|]; [|left; reflexivity].
  destruct (group m 1) as [u|]; [|left; reflexivity].
  destruct (matched (validate_input u)); [|left; reflexivity].
  right; rewrite acceptNavigationRequest_redirect; eauto.
Qed.

(** On a target without a line feed the hook follows [decide]. *)
Lemma hook_follows_decide (url : str) (t : BrowserTab) :
  ~ In LF url ->
  acceptNavigationRequest url t
  = match decide url with
    | Allow => (true, t)
    | CancelAndRedirect target va => (false, redirected target va t)
    | Block => (false, t)
    end.
Proof.
  intros Hlf; unfold acceptNavigationRequest, decide.
  destruct (startswith GITHUB_BASE url); [reflexivity|].
  rewrite navigation_match.
  destruct (after_scheme url) as [r|] eqn:E; [|reflexivity].
  assert (Hr : ~ In LF r) by (intros Hin; eapply Hlf, after_scheme_In; eauto).
  rewrite (first_line_all _ Hr).
  destruct r as [|x r]; [reflexivity|].
  cbn [group Nat.eqb].
  destruct (matched (validate_input (x :: r))); [|reflexivity].
  rewrite acceptNavigationRequest_redirect.
  now destruct (parse_input (x :: r)).
Qed.

End NavigationFacts.

(** Group 1 of the hook's pattern ends at a line feed: what is validated
    and rewritten is the first line behind the scheme. *)
Example hook_first_line_only :
  acceptNavigationRequest (lit "http://example.com" ++ [LF] ++ lit "x") new_tab
  = (false,
     redirected (lit "https://datlittladucky.github.io/Websites/example.com/index.html")
                (lit "example.com") new_tab).
Proof. reflexivity. Qed.

(** Targets that are neither under the host nor [http(s)] are refused. *)
Example hook_refuses_about_blank :
  forall t, acceptNavigationRequest (lit "about:blank") t = (false, t).
Proof. reflexivity. Qed.

Example hook_refuses_data_url :
  forall t,
    acceptNavigationRequest (lit "data:text/html;charset=UTF-8,404") t
    = (false, t).
Proof. reflexivity. Qed.

Example hook_blocks_malicious :
  forall t, acceptNavigationRequest (lit "https://malicious.test/") t = (false, t).
Proof. reflexivity. Qed.

(** C2: for a navigation target without a raw line feed (a URL has none),
    the hook does what [decide] says.  A target under the static-host
    prefix is accepted and the tab is untouched; otherwise a target that is
    [http://] or [https://] and a remainder that [validate_input] accepts
    is refused, after the virtual address has been set and then the load of
    the rewritten target issued, in this order; every other target is
    refused and the tab is untouched.  A rewritten target is itself
    accepted as it is.  Whatever the target, line feed or not, the outcome
    is one of these three. *)
Theorem acceptNavigationRequest_decides :
  (forall url t,
     ~ In LF url ->
     acceptNavigationRequest url t
     = match decide url with
       | Allow => (true, t)
       | CancelAndRedirect target va => (false, redirected target va t)
       | Block => (false, t)
       end) /\
  (forall domain subpath t,
     decide (Rewritten_Target domain subpath) = Allow /\
     acceptNavigationRequest (Rewritten_Target domain subpath) t = (true, t)) /\
  (forall url t,
     (startswith GITHUB_BASE url = true /\
      acceptNavigationRequest url t = (true, t)) \/
     acceptNavigationRequest url t = (false, t) \/
     (exists domain subpath,
        acceptNavigationRequest url t
        = (false, redirected (Rewritten_Target domain subpath)
                             (Virtual_Address domain subpath) t))).
Proof.
  split; [intros; now apply NavigationFacts.hook_follows_decide|].
  split; [|exact NavigationFacts.hook_outcomes].
  intros domain subpath t; unfold acceptNavigationRequest, decide.
  now rewrite NavigationFacts.Rewritten_Target_under_host.
Qed.

Lemma acceptNavigationRequest_decides_witness :
  ~ In LF (lit "https://example.com/foo/bar") /\
  acceptNavigationRequest (lit "https://example.com/foo/bar") new_tab
  = (false,
     redirected (lit "https://datlittladucky.github.io/Websites/example.com/foo/bar.html")
                (lit "example.com/foo/bar") new_tab).
Proof.
  assert (H : ~ In LF (lit "https://example.com/foo/bar")).
  { simpl; intuition discriminate. }
  split; [exact H|].
  exact (proj1 acceptNavigationRequest_decides _ new_tab H).
Defined.

(** ** The address bar *)

Module LoadPageFacts.
Import ValidateFacts ParseFacts GrammarFacts NavigationFacts.

Lemma str_eqb_eq (a b : str) : str_eqb a b = true <-> a = b.
Proof.
  unfold str_eqb; destruct (list_eq_dec ascii_dec a b); split; congruence.
Qed.

Lemma start_token_test (u : str) :
  existsb (str_eqb (lower u)) [lit "start"; lit "websites/start"] = true
  <-> is_start_token u.
Proof.
  unfold is_start_token; simpl.
  rewrite orb_false_r, orb_true_iff, !str_eqb_eq; reflexivity.
Qed.

Lemma grammar_has_dot (g : str) : address_grammar g -> In "."%char g.
Proof.
  intros (sch & labels & tld & path & -> & _ & Hne & _).
  destruct labels as [|l labels]; [congruence|].
  change (hostname (l :: labels)) with ((l ++ lit ".") ++ hostname labels).
  rewrite !in_app_iff; simpl; tauto.
Qed.

(** An accepted text has a dot, so it is none of the start tokens. *)
Lemma validated_not_token (u : str) :
  matched (validate_input u) = true -> ~ is_start_token u.
Proof.
  intros H; apply validate_input_accepts in H as (g & Hg & Hu).
  assert (Hdot : In "."%char (lower u)).
  { change "."%char with (lower_char "."); apply in_map.
    apply grammar_has_dot in Hg.
    destruct Hu as [-> | ->]; [|rewrite in_app_iff]; auto. }
  intros [E|E]; rewrite E in Hdot; simpl in Hdot; intuition discriminate.
Qed.

Lemma load_page_start (text : str) (t : BrowserTab) :
  is_start_token (strip_ws text) ->
  exec (load_page text) t = exec (setUrl START_PAGE) t.
Proof.
  intros H; apply start_token_test in H.
  unfold load_page; now rewrite H.
Qed.

Lemma not_token_test (u : str) :
  ~ is_start_token u ->
  existsb (str_eqb (lower u)) [lit "start"; lit "websites/start"] = false.
Proof.
  intros H.
  destruct (existsb (str_eqb (lower u)) [lit "start"; lit "websites/start"])
    eqn:E; [|reflexivity].
  now apply start_token_test in E.
Qed.

Lemma load_page_invalid (text : str) (t : BrowserTab) :
  ~ is_start_token (strip_ws text) ->
  matched (validate_input (strip_ws text)) = false ->
  exec (load_page text) t = showing_error (lit "Invalid domain format") t.
Proof.
  intros Ht Hv; unfold load_page.
  now rewrite (not_token_test Ht), Hv.
Qed.

Lemma load_page_valid (text : str) (t : BrowserTab) :
  matched (validate_input (strip_ws text)) = true ->
  exec (load_page text) t
  = submitted (fst (parse_input (strip_ws text)))
              (snd (parse_input (strip_ws text))) t.
Proof.
  intros Hv; unfold load_page.
  rewrite (not_token_test (validated_not_token Hv)), Hv; cbn [negb].
  destruct (parse_input (strip_ws text)) as [domain subpath].
  rewrite rewritten_pair.
  unfold submitted, exec, bind, set_virtual_url, setUrl, setTabText; simpl.
  now rewrite <- !app_assoc.
Qed.

End LoadPageFacts.

Section AddressBar.
Import LoadPageFacts.

(** C7 as it is worded fails: the text [START] is neither of the two
    literal tokens and does not validate, yet [load_page] loads the start
    page instead of showing the error document. *)
Lemma load_page_start_any_case : ~ submission_as_worded.
Proof.
  intros H.
  destruct (H (lit "START") new_tab) as (_ & _ & H3).
  destruct H3 as [E _]; [discriminate|discriminate|reflexivity|].
  discriminate E.
Qed.

(** C7, amended: [load_page] first removes the white space around the
    entered text.  If the result, put in lower case, is [start] or
    [websites/start], the start page is loaded.  Otherwise, if the result
    validates, the virtual address is set, the rewritten target loaded and
    the tab labelled with the domain.  Otherwise the view shows the
    "Invalid domain format" error document: no URL is loaded, and the
    virtual address and the tab label are as before. *)
Theorem load_page_contract (text : str) (t : BrowserTab) :
  (is_start_token (strip_ws text) ->
   exec (load_page text) t
   = mkTab (virtual_url t) (Remote START_PAGE) (tab_text t) (pending t)
           (calls t ++ [SetUrl START_PAGE])) /\
  (~ is_start_token (strip_ws text) ->
   matched (validate_input (strip_ws text)) = true ->
   exec (load_page text) t
   = submitted (fst (parse_input (strip_ws text)))
               (snd (parse_input (strip_ws text))) t) /\
  (~ is_start_token (strip_ws text) ->
   matched (validate_input (strip_ws text)) = false ->
   exec (load_page text) t = showing_error (lit "Invalid domain format") t).
Proof.
  repeat split.
  - intros H; now rewrite load_page_start.
  - intros _; apply load_page_valid.
  - apply load_page_invalid.
Qed.

Lemma load_page_contract_witness :
  (is_start_token (strip_ws (lit " Websites/START ")) /\
   location (exec (load_page (lit " Websites/START ")) new_tab)
   = Remote START_PAGE) /\
  (~ is_start_token (strip_ws (lit "example.com/foo/bar")) /\
   matched (validate_input (strip_ws (lit "example.com/foo/bar"))) = true /\
   exec (load_page (lit "example.com/foo/bar")) new_tab
   = submitted (lit "example.com") (lit "foo/bar") new_tab) /\
  (~ is_start_token (strip_ws (lit "not a domain")) /\
   matched (validate_input (strip_ws (lit "not a domain"))) = false /\
   exec (load_page (lit "not a domain")) new_tab
   = showing_error (lit "Invalid domain format") new_tab).
Proof.
  assert (T1 : is_start_token (strip_ws (lit " Websites/START "))).
  { right; reflexivity. }
  assert (T2 : ~ is_start_token (strip_ws (lit "example.com/foo/bar"))).
  { intros [E|E]; discriminate E. }
  assert (T3 : ~ is_start_token (strip_ws (lit "not a domain"))).
  { intros [E|E]; discriminate E. }
  split; [|split].
  - split; [exact T1|].
    exact (f_equal location
             (proj1 (load_page_contract (lit " Websites/START ") new_tab) T1)).
  - split; [exact T2|]; split; [reflexivity|].
    exact (proj1 (proj2 (load_page_contract (lit "example.com/foo/bar") new_tab))
             T2 eq_refl).
  - split; [exact T3|]; split; [reflexivity|].
    exact (proj2 (proj2 (load_page_contract (lit "not a domain") new_tab))
             T3 eq_refl).
Defined.

End AddressBar.

(** ** Rewritten targets *)

Section Rewriting.
Import ParseFacts NavigationFacts LoadPageFacts.

(** C8: from an accepted address both [load_page] and the navigation hook
    build the target [{host}/{domain}/{subpath}.html] when the parsed
    subpath is not empty and [{host}/{domain}/index.html] when it is, and
    the virtual address [{domain}/{subpath}] or [{domain}].  For
    [example.com] the target is
    [https://datlittladucky.github.io/Websites/example.com/index.html] and
    the virtual address [example.com]; for [example.com/foo/bar] they are
    [https://datlittladucky.github.io/Websites/example.com/foo/bar.html]
    and [example.com/foo/bar]. *)
Theorem rewritten_target_of_address :
  (forall t,
     location (exec (load_page (lit "example.com")) t)
     = Remote (lit "https://datlittladucky.github.io/Websites/example.com/index.html") /\
     virtual_url (exec (load_page (lit "example.com")) t) = lit "example.com") /\
  (forall t,
     location (exec (load_page (lit "example.com/foo/bar")) t)
     = Remote (lit "https://datlittladucky.github.io/Websites/example.com/foo/bar.html") /\
     virtual_url (exec (load_page (lit "example.com/foo/bar")) t)
     = lit "example.com/foo/bar") /\
  (forall t,
     location (snd (acceptNavigationRequest (lit "https://example.com") t))
     = Remote (lit "https://datlittladucky.github.io/Websites/example.com/index.html") /\
     virtual_url (snd (acceptNavigationRequest (lit "https://example.com") t))
     = lit "example.com") /\
  (forall t,
     location (snd (acceptNavigationRequest (lit "https://example.com/foo/bar") t))
     = Remote (lit "https://datlittladucky.github.io/Websites/example.com/foo/bar.html") /\
     virtual_url (snd (acceptNavigationRequest (lit "https://example.com/foo/bar") t))
     = lit "example.com/foo/bar") /\
  (forall text t,
     matched (validate_input (strip_ws text)) = true ->
     exec (load_page text) t
     = submitted (fst (parse_input (strip_ws text)))
                 (snd (parse_input (strip_ws text))) t) /\
  (forall url rest t,
     ~ In LF url -> startswith GITHUB_BASE url = false ->
     after_scheme url = Some rest ->
     matched (validate_input rest) = true ->
     snd (acceptNavigationRequest url t)
     = redirected (Rewritten_Target (fst (parse_input rest)) (snd (parse_input rest)))
                  (Virtual_Address (fst (parse_input rest)) (snd (parse_input rest)))
                  t).
Proof.
  repeat split; try reflexivity.
  - intros text t; apply load_page_valid.
  - intros url rest t Hlf Hhost Hrest Hv.
    rewrite (@hook_follows_decide url t Hlf); unfold decide.
    rewrite Hhost, Hrest, Hv.
    now destruct (parse_input rest).
Qed.

Lemma rewritten_target_of_address_witness :
  (matched (validate_input (strip_ws (lit " example.com/a "))) = true /\
   exec (load_page (lit " example.com/a ")) new_tab
   = submitted (lit "example.com") (lit "a") new_tab) /\
  (~ In LF (lit "http://example.org/a/b") /\
   startswith GITHUB_BASE (lit "http://example.org/a/b") = false /\
   after_scheme (lit "http://example.org/a/b") = Some (lit "example.org/a/b") /\
   matched (validate_input (lit "example.org/a/b")) = true /\
   snd (acceptNavigationRequest (lit "http://example.org/a/b") new_tab)
   = redirected (lit "https://datlittladucky.github.io/Websites/example.org/a/b.html")
                (lit "example.org/a/b") new_tab).
Proof.
  assert (H : ~ In LF (lit "http://example.org/a/b")).
  { simpl; intuition discriminate. }
  split.
  - split; [reflexivity|].
    exact (proj1 (proj2 (proj2 (proj2 (proj2 rewritten_target_of_address))))
             (lit " example.com/a ") new_tab eq_refl).
  - split; [exact H|]; repeat (split; [reflexivity|]).
    exact (proj2 (proj2 (proj2 (proj2 (proj2 rewritten_target_of_address))))
             (lit "http://example.org/a/b") (lit "example.org/a/b") new_tab
             H eq_refl eq_refl eq_refl).
Defined.

End Rewriting.

(** ** Doubled slashes *)

Section DoubleSlash.
Import ParseFacts NavigationFacts LoadPageFacts.

Lemma first_slash_unique (a a' b b' : str) :
  a ++ "/"%char :: b = a' ++ "/"%char :: b' ->
  ~ In "/"%char a -> ~ In "/"%char a' -> a = a' /\ b = b'.
Proof.
  revert a'; induction a as [|x a IH]; intros [|y a'] E Ha Ha'; simpl in *.
  - now injection E.
  - injection E as <- _; tauto.
  - injection E as -> _; tauto.
  - injection E as -> E.
    destruct (IH a' E) as [-> ->]; tauto.
Qed.

Lemma non_slash_exists (r : str) :
  (exists x, In x r /\ x <> "/"%char) ->
  existsb (fun c => negb (in_chars (lit "/") c)) r = true.
Proof.
  intros (x & Hin & Hx); apply existsb_exists; exists x; split; auto.
  apply in_chars_slash_false in Hx; now rewrite Hx.
Qed.

(** C10 as it is worded fails: [example.com//] is accepted and has two
    slashes in a row, but they are stripped as trailing slashes and the
    subpath is empty. *)
Lemma trailing_double_slash_is_stripped : ~ double_slash_as_worded.
Proof.
  intros H.
  destruct (H (lit "example.com//")) as ((p & Hp) & _).
  - reflexivity.
  - now exists (lit "example.com"), (lit "").
  - discriminate Hp.
Qed.

Example inner_double_slash :
  matched (validate_input (lit "example.com/a//b")) = true /\
  parse_input (lit "example.com/a//b") = (lit "example.com", lit "a//b").
Proof. split; reflexivity. Qed.

Example scheme_double_slash :
  matched (validate_input (lit "http://example.com")) = true /\
  parse_input (lit "http://example.com") = (lit "example.com", lit "").
Proof. split; reflexivity. Qed.

(** C10, amended: [validate_input] accepts inputs with two slashes in a
    row, [example.com//foo] for one, which parses to the domain
    [example.com] and the subpath [/foo], with the target
    [{host}/example.com//foo.html] and the virtual address
    [example.com//foo].  In general, for an input that is an optional
    scheme, a domain without a slash, two slashes and a rest that has a
    character other than a slash (and no scheme text behind the leading
    scheme), [parse_input] returns that domain and a subpath that begins
    with a slash: a slash and the rest without its trailing slashes ([p]
    below, which does not end with a slash, and after which the rest has
    slashes only).  The rewritten target and the virtual address then
    have both slashes. *)
Theorem double_slash_after_domain :
  (matched (validate_input (lit "example.com//foo")) = true /\
   parse_input (lit "example.com//foo") = (lit "example.com", lit "/foo") /\
   forall t,
     location (exec (load_page (lit "example.com//foo")) t)
     = Remote (GITHUB_BASE ++ lit "example.com//foo.html") /\
     virtual_url (exec (load_page (lit "example.com//foo")) t)
     = lit "example.com//foo") /\
  (forall sch d r,
     scheme_ok sch -> d <> [] -> ~ In "/"%char d ->
     ~ occurs http (d ++ lit "//" ++ r) ->
     ~ occurs https (d ++ lit "//" ++ r) ->
     (exists x, In x r /\ x <> "/"%char) ->
     exists p t,
       p <> [] /\ r = p ++ t /\ slashes t /\
       (forall a x, p = a ++ [x] -> x <> "/"%char) /\
       parse_input (sch ++ d ++ lit "//" ++ r) = (d, "/"%char :: p) /\
       Rewritten_Target d ("/"%char :: p)
       = GITHUB_BASE ++ d ++ lit "//" ++ p ++ lit ".html" /\
       Virtual_Address d ("/"%char :: p) = d ++ lit "//" ++ p).
Proof.
  split; [repeat split; reflexivity|].
  intros sch d r Hsch Hd Hds H1 H2 Hr.
  set (f := in_chars (lit "/")).
  destruct (rstrip_by_spec f r) as (t & Er & Ht & Hlast).
  exists (rstrip_by f r), t.
  assert (Hp : rstrip_by f r <> []).
  { intros E; rewrite E in Er; simpl in Er; subst t.
    destruct Hr as (x & Hin & Hx).
    rewrite forallb_forall in Ht; apply Ht, in_chars_slash in Hin; auto. }
  assert (En : normalised (sch ++ d ++ lit "//" ++ r)
               = d ++ "/"%char :: "/"%char :: rstrip_by f r).
  { unfold normalised; rewrite replace_schemes by assumption.
    unfold strip, strip_by; fold f.
    rewrite lstrip_by_fixed.
    - rewrite (app_assoc d), rstrip_by_app by now apply non_slash_exists.
      now rewrite <- app_assoc.
    - destruct d as [|x0 d]; [congruence|].
      intros x b [= <- _]; apply in_chars_slash_false.
      intros ->; apply Hds; simpl; auto. }
  split; [assumption|].
  split; [assumption|].
  split; [now apply slashes_forallb|].
  split; [intros a x E; apply in_chars_slash_false, (Hlast a x E)|].
  split; [|split; reflexivity].
  destruct (parse_input_cases (sch ++ d ++ lit "//" ++ r))
    as [[Hno _] | (a & b & Ea & Ha & ->)].
  - exfalso; apply Hno; rewrite En, in_app_iff; simpl; auto.
  - rewrite En in Ea; symmetry in Ea.
    now destruct (first_slash_unique _ _ _ _ Ea Ha Hds) as [-> ->].
Qed.

Lemma double_slash_after_domain_witness :
  exists p t,
    p <> [] /\ lit "a-b//c/" = p ++ t /\ slashes t /\
    (forall a x, p = a ++ [x] -> x <> "/"%char) /\
    parse_input (lit "https://" ++ lit "example.org" ++ lit "//" ++ lit "a-b//c/")
    = (lit "example.org", "/"%char :: p) /\
    Rewritten_Target (lit "example.org") ("/"%char :: p)
    = GITHUB_BASE ++ lit "example.org" ++ lit "//" ++ p ++ lit ".html" /\
    Virtual_Address (lit "example.org") ("/"%char :: p)
    = lit "example.org" ++ lit "//" ++ p.
Proof.
  apply (proj2 double_slash_after_domain (lit "https://") (lit "example.org")
           (lit "a-b//c/")).
  - right; right; reflexivity.
  - discriminate.
  - simpl; intuition discriminate.
  - intros H; apply contains_occurs in H; discriminate H.
  - intros H; apply contains_occurs in H; discriminate H.
  - exists "a"%char; split; [simpl; auto|discriminate].
Defined.

End DoubleSlash.

(** ** What the engine shows *)

Section Confinement.
Import NavigationFacts LoadPageFacts.

Lemma START_PAGE_under_host : startswith GITHUB_BASE START_PAGE = true.
Proof. apply startswith_app. Qed.

Lemma confined_setUrl (url : str) (t : BrowserTab) :
  startswith GITHUB_BASE url = true -> confined t ->
  confined (exec (setUrl url) t).
Proof.
  intros Hu [_ Hc]; split; simpl.
  - right; left; eauto.
  - apply Forall_app; split; [assumption|now repeat constructor].
Qed.

Lemma confined_show_custom_404 (message : str) (t : BrowserTab) :
  confined t -> confined (exec (show_custom_404 message) t).
Proof.
  intros [_ Hc]; split; simpl.
  - right; right; now exists message.
  - apply Forall_app; split; [assumption|].
    repeat constructor; now exists message.
Qed.

Lemma confined_same_location (t t' : BrowserTab) (c : Call) :
  location t' = location t -> calls t' = calls t ++ [c] -> call_ok c ->
  confined t -> confined t'.
Proof.
  intros El Ec Hc [Hl Hcs]; split; [now rewrite El|].
  rewrite Ec; apply Forall_app; split; [assumption|now repeat constructor].
Qed.

Lemma confined_redirected (domain subpath : str) (t : BrowserTab) :
  confined t ->
  confined (redirected (Rewritten_Target domain subpath)
                       (Virtual_Address domain subpath) t).
Proof.
  intros [_ Hc]; split; simpl.
  - right; left; eauto using Rewritten_Target_under_host.
  - apply Forall_app; split; [assumption|].
    repeat constructor; apply Rewritten_Target_under_host.
Qed.

Lemma confined_submitted (domain subpath : str) (t : BrowserTab) :
  confined t -> confined (submitted domain subpath t).
Proof.
  intros [_ Hc]; split; simpl.
  - right; left; eauto using Rewritten_Target_under_host.
  - apply Forall_app; split; [assumption|].
    repeat constructor; apply Rewritten_Target_under_host.
Qed.

Lemma confined_acceptNavigationRequest (url : str) (t : BrowserTab) :
  confined t ->
  confined (let (accepted, t') := acceptNavigationRequest url t in
            if accepted then engine_load url t' else t').
Proof.
  intros Ht; unfold acceptNavigationRequest.
  destruct (startswith GITHUB_BASE url) eqn:Eh.
  - destruct Ht as [_ Hc]; split; simpl; [right; left; eauto|assumption].
  - destruct (re_match navigation_pattern url) as [m|]; [|exact Ht].
    destruct (group m 1) as [u|]; [|exact Ht].
    destruct (matched (validate_input u)); [|exact Ht].
    rewrite acceptNavigationRequest_redirect.
    now apply confined_redirected.
Qed.

Lemma confined_load_page (text : str) (t : BrowserTab) :
  confined t -> confined (exec (load_page text) t).
Proof.
  intros Ht.
  destruct (matched (validate_input (strip_ws text))) eqn:Ev.
  - rewrite load_page_valid by assumption; now apply confined_submitted.
  - destruct (existsb (str_eqb (lower (strip_ws text)))
                [lit "start"; lit "websites/start"]) eqn:Et.
    + apply start_token_test in Et; rewrite load_page_start by assumption.
      apply confined_setUrl; auto using START_PAGE_under_host.
    + rewrite load_page_invalid; auto.
      * now apply (confined_show_custom_404 (lit "Invalid domain format")).
      * intros Hs; apply start_token_test in Hs; congruence.
Qed.

Lemma confined_handle (ev : Event) (t : BrowserTab) :
  confined t -> confined (handle ev t).
Proof.
  intros Ht; destruct ev as [url|text|title|url|success|value]; simpl.
  - now apply confined_acceptNavigationRequest.
  - now apply confined_load_page.
  - unfold update_tab_title.
    destruct (nonempty title && nonempty (strip_ws title));
      eapply confined_same_location with (t := t);
      solve [reflexivity | exact I | exact Ht].
  - unfold sync_virtual_url.
    destruct (startswith GITHUB_BASE url); [|exact Ht].
    eapply confined_same_location with (t := t);
      [reflexivity|reflexivity|exact I|exact Ht].
  - unfold check_load_success; destruct success; simpl negb; cbv iota.
    + eapply confined_same_location with (t := t);
        [reflexivity|reflexivity|exact I|exact Ht].
    + now apply confined_show_custom_404.
  - assert (Hp : forall rest,
               confined (mkTab (virtual_url t) (location t) (tab_text t)
                               rest (calls t))) by (intros; exact Ht).
    destruct (pending t) as [|[script []] rest]; [exact Ht|].
    unfold invoke, check_title_for_404.
    destruct value as [title|]; [|apply Hp].
    destruct (nonempty title && contains (lit "404") title); [|apply Hp].
    apply confined_show_custom_404, Hp.
Qed.

(** C1: in every state a tab can reach, what the engine shows is the
    start page, a location under the static-host base URL, or a locally
    generated error document; and every call that set the location (from
    the hook, from the address bar or for an error document) set it to
    such a place. *)
Theorem reachable_confined (t : BrowserTab) :
  reachable t ->
  location_ok (location t) /\ Forall call_ok (calls t).
Proof.
  induction 1 as [|t ev _ IH].
  - split; simpl.
    + now left.
    + repeat constructor; apply START_PAGE_under_host.
  - now apply confined_handle.
Qed.

Lemma reachable_confined_witness :
  let t :=
    handle (JavaScriptResult (Some (lit "404 Not Found")))
      (handle (LoadFinished true)
         (handle (NavigationRequest (lit "https://example.com/foo"))
            (handle (ReturnPressed (lit "example.org"))
               (add_tab (Some START_PAGE))))) in
  reachable t /\ location_ok (location t) /\ Forall call_ok (calls t).
Proof.
  intros t.
  assert (R : reachable t) by (repeat apply reach_step; apply reach_open).
  split; [exact R|exact (reachable_confined R)].
Defined.

End Confinement.

(** ** Synchronising the virtual address *)

Section VirtualAddressSync.
Import ParseFacts.

(** A text whose first character does not come again cannot overlap
    itself, so its one occurrence at the end is the one replaced. *)
Lemma replace_only_suffix (c : ascii) (pt new stem : str) :
  ~ In c pt -> ~ occurs (c :: pt) stem ->
  replace (c :: pt) new (stem ++ c :: pt) = stem ++ new.
Proof.
  intros Hc; induction stem as [|x stem IH]; intros Hno.
  - pose proof (@replace_leading (c :: pt) new []) as E.
    rewrite app_nil_r in E; cbn [app]; rewrite E by discriminate.
    apply app_nil_r.
  - unfold replace in *; cbn [app replace_from].
    destruct (startswith (c :: pt) (x :: stem ++ c :: pt)) eqn:E.
    + exfalso.
      destruct (startswith_true _ _ E) as [t Et].
      injection Et as -> Et.
      apply app_eq_app in Et as [l [[E1 E2] | [E1 E2]]].
      * apply Hno; exists [], l; simpl; now rewrite E1.
      * destruct l as [|y l].
        -- apply Hno; exists [], []; simpl.
           rewrite E1, !app_nil_r; reflexivity.
        -- injection E2 as <- _; apply Hc; rewrite E1, in_app_iff; simpl; auto.
    + cbn [app]; f_equal; apply IH.
      intros Ho; apply Hno; now apply occurs_cons.
Qed.

Example sync_virtual_url_inner_html :
  virtual_url
    (exec (sync_virtual_url (GITHUB_BASE ++ lit "x.html.com/index.html")) new_tab)
  = lit "x.com/index".
Proof. reflexivity. Qed.

Example sync_virtual_url_index :
  virtual_url
    (exec (sync_virtual_url (Rewritten_Target (lit "example.com") (lit ""))) new_tab)
  = lit "example.com/index".
Proof. reflexivity. Qed.

Lemma GITHUB_BASE_nonempty : GITHUB_BASE <> [].
Proof. discriminate. Qed.

(** C3 as it is worded fails: after [example.com] was submitted, a
    completed navigation to a location outside the static host (here
    [about:blank]) leaves the virtual address [example.com]; it is not
    empty. *)
Lemma sync_virtual_url_keeps_address : ~ sync_as_worded.
Proof.
  intros H.
  destruct (H (lit "about:blank")
              (handle (ReturnPressed (lit "example.com"))
                 (add_tab (Some START_PAGE)))) as [_ H2].
  specialize (H2 eq_refl); discriminate H2.
Qed.

(** C3, amended: when the completed navigation's location is the
    static-host base URL followed by a rest (in which the base URL does
    not come again, and [.html] comes at most as the ending), the virtual
    address becomes that rest without the ending [.html] and without the
    slashes at its two ends, and nothing else in the tab changes but the
    record of that assignment.  When the location is not under the static
    host, the tab, and with it the virtual address, stays as it was. *)
Theorem sync_virtual_url_contract (url : str) (t : BrowserTab) :
  (forall rest stem,
     url = GITHUB_BASE ++ rest ->
     ~ occurs GITHUB_BASE rest ->
     html_suffix_removed rest stem ->
     ~ occurs (lit ".html") stem ->
     exists va,
       slash_stripped stem va /\
       exec (sync_virtual_url url) t
       = mkTab va (location t) (tab_text t) (pending t)
               (calls t ++ [SetVirtualUrl va])) /\
  (startswith GITHUB_BASE url = false -> exec (sync_virtual_url url) t = t).
Proof.
  split.
  - intros rest stem -> Hbase Hstem Hhtml.
    exists (strip (lit "/") stem); split; [apply strip_slash_stripped|].
    unfold sync_virtual_url.
    rewrite startswith_app, (replace_leading _ _ GITHUB_BASE_nonempty).
    rewrite (replace_absent _ GITHUB_BASE_nonempty Hbase).
    change (lit "" ++ rest) with rest.
    assert (E : replace (lit ".html") (lit "") rest = stem).
    { destruct Hstem as [-> | [-> _]].
      - change (lit ".html") with ("."%char :: lit "html").
        rewrite replace_only_suffix.
        + apply app_nil_r.
        + simpl; intuition discriminate.
        + exact Hhtml.
      - apply replace_absent; [discriminate|assumption]. }
    now rewrite E.
  - intros H; unfold sync_virtual_url; now rewrite H.
Qed.

Lemma sync_virtual_url_contract_witness :
  exists va,
    slash_stripped (lit "example.com/foo/bar") va /\
    exec (sync_virtual_url (GITHUB_BASE ++ lit "example.com/foo/bar.html")) new_tab
    = mkTab va Blank (lit "New Tab") [] [SetVirtualUrl va].
Proof.
  apply (proj1 (sync_virtual_url_contract
                  (GITHUB_BASE ++ lit "example.com/foo/bar.html") new_tab)
           (lit "example.com/foo/bar.html") (lit "example.com/foo/bar")).
  - reflexivity.
  - intros H; apply contains_occurs in H; discriminate H.
  - left; reflexivity.
  - intros H; apply contains_occurs in H; discriminate H.
Defined.

End VirtualAddressSync.

(** ** Not-found detection *)

Section NotFound.

(** C6: after a load that reported failure the view shows the locally
    generated error document with the message "Page failed to load".
    After a load that reported success the title of the document is
    queried and nothing is shown yet; when the title arrives, the view
    shows the error document with the message "Page not found" if the
    title contains [404], and is left as it is if it does not (or if
    there is no title). *)
Theorem not_found_detection (t : BrowserTab) :
  exec (check_load_success false) t = showing_error (lit "Page failed to load") t /\
  exec (check_load_success true) t
  = mkTab (virtual_url t) (location t) (tab_text t)
          (pending t ++ [(lit "document.title", CheckTitleFor404)])
          (calls t ++ [RunJavaScript (lit "document.title") CheckTitleFor404]) /\
  (forall script rest value,
     pending t = (script, CheckTitleFor404) :: rest ->
     handle (JavaScriptResult value) t
     = exec (check_title_for_404 value)
         (mkTab (virtual_url t) (location t) (tab_text t) rest (calls t))) /\
  (forall title,
     occurs (lit "404") title ->
     exec (check_title_for_404 (Some title)) t
     = showing_error (lit "Page not found") t) /\
  (forall title,
     ~ occurs (lit "404") title ->
     exec (check_title_for_404 (Some title)) t = t) /\
  exec (check_title_for_404 None) t = t /\
  exec (check_title_for_404 (Some (lit "404 Not Found"))) t
  = showing_error (lit "Page not found") t.
Proof.
  repeat split; try reflexivity.
  - intros script rest value E; simpl; now rewrite E.
  - intros title H; unfold check_title_for_404.
    assert (Hn : nonempty title = true).
    { destruct H as (a & b & ->); now destruct a. }
    apply contains_occurs in H; now rewrite Hn, H.
  - intros title H; unfold check_title_for_404.
    destruct (contains (lit "404") title) eqn:E.
    + now apply contains_occurs in E.
    + now rewrite andb_false_r.
Qed.

Lemma not_found_detection_witness :
  let t := handle (LoadFinished true) (add_tab (Some START_PAGE)) in
  location (handle (JavaScriptResult (Some (lit "Error 404"))) t)
  = InMemory (error_document (lit "Page not found")) /\
  handle (JavaScriptResult (Some (lit "Welcome"))) t
  = mkTab (virtual_url t) (location t) (tab_text t) [] (calls t).
Proof.
  intros t.
  destruct (not_found_detection
              (mkTab (virtual_url t) (location t) (tab_text t) [] (calls t)))
    as (_ & _ & _ & Hyes & Hno & _).
  destruct (not_found_detection t) as (_ & _ & Hq & _).
  split.
  - rewrite (Hq (lit "document.title") [] _ eq_refl).
    rewrite (Hyes (lit "Error 404")); [reflexivity|].
    now exists (lit "Error "), (lit "").
  - rewrite (Hq (lit "document.title") [] _ eq_refl).
    apply Hno; intros H; apply contains_occurs in H; discriminate H.
Defined.

End NotFound.

(** * Further properties of the code *)

(** ** More on stripping *)

Module StripMore.

Lemma lstrip_by_all (f : ascii -> bool) (u v : str) :
  forallb f u = true -> lstrip_by f (u ++ v) = lstrip_by f v.
Proof.
  induction u as [|c u IH]; simpl; [reflexivity|].
  intros H; apply andb_true_iff in H as [-> Hu]; auto.
Qed.

Lemma lstrip_by_nil (f : ascii -> bool) (u : str) :
  forallb f u = true -> lstrip_by f u = [].
Proof.
  intros H; rewrite <- (app_nil_r u); now rewrite lstrip_by_all.
Qed.

Lemma rstrip_by_all (f : ascii -> bool) (u v : str) :
  forallb f v = true -> rstrip_by f (u ++ v) = rstrip_by f u.
Proof.
  intros H; unfold rstrip_by.
  now rewrite rev_app_distr, lstrip_by_all by now rewrite forallb_rev.
Qed.

Lemma rstrip_by_nil (f : ascii -> bool) (v : str) :
  forallb f v = true -> rstrip_by f v = [].
Proof.
  intros H; unfold rstrip_by.
  now rewrite lstrip_by_nil by now rewrite forallb_rev.
Qed.

Lemma forallb_or_existsb (f : ascii -> bool) (l : str) :
  forallb f l = true \/ existsb (fun c => negb (f c)) l = true.
Proof.
  induction l as [|c l [IH|IH]]; simpl; auto.
  - destruct (f c); simpl; auto.
  - right; rewrite IH; apply orb_true_r.
Qed.

Lemma rstrip_by_last (f : ascii -> bool) (s a : str) (x : ascii) :
  rstrip_by f s = a ++ [x] -> f x = false.
Proof.
  destruct (rstrip_by_spec f s) as (t & _ & _ & H); apply H.
Qed.

Lemma rstrip_by_In (f : ascii -> bool) (s : str) (c : ascii) :
  In c (rstrip_by f s) -> In c s.
Proof.
  destruct (rstrip_by_spec f s) as (t & E & _).
  intros H; rewrite E, in_app_iff; auto.
Qed.

(** A text with an unstripped character at each end stays as it is. *)
Lemma strip_by_edges (f : ascii -> bool) (x y : ascii) (m : str) :
  f x = false -> f y = false ->
  strip_by f (x :: m ++ [y]) = x :: m ++ [y].
Proof.
  intros Hx Hy; apply strip_by_fixed; split.
  - now intros x' b [= <- _].
  - intros a y' E.
    change (x :: m ++ [y]) with ((x :: m) ++ [y]) in E.
    now apply app_inj_tail in E as [_ <-].
Qed.

Lemma strip_by_single (f : ascii -> bool) (x : ascii) :
  f x = false -> strip_by f [x] = [x].
Proof.
  intros Hx; apply strip_by_fixed; split.
  - now intros x' b [= <- _].
  - intros a y E; change [x] with ([] ++ [x]) in E.
    now apply app_inj_tail in E as [_ <-].
Qed.

End StripMore.

(** ** Parsing a text of the grammar *)

Module GrammarParse.
Import ValidateFacts ParseFacts GrammarFacts StripMore.

Lemma parse_input_no_slash (s : str) :
  ~ In "/"%char (normalised s) -> parse_input s = (normalised s, []).
Proof.
  intros H.
  destruct (parse_input_cases s) as [[_ E] | (a & b & E & _)]; [exact E|].
  exfalso; apply H; rewrite E, in_app_iff; simpl; auto.
Qed.

Lemma parse_input_at_slash (s a b : str) :
  normalised s = a ++ "/"%char :: b -> ~ In "/"%char a ->
  parse_input s = (a, b).
Proof.
  intros E Ha.
  destruct (parse_input_cases s) as [[H _] | (a' & b' & E' & Ha' & ->)].
  - exfalso; apply H; rewrite E, in_app_iff; simpl; auto.
  - rewrite E in E'.
    now destruct (first_slash_unique _ _ _ _ E' Ha Ha') as [-> ->].
Qed.

Lemma label_char_host (c : ascii) : label_char c = true -> host_char c = true.
Proof. unfold host_char; intros ->; reflexivity. Qed.

Lemma host_char_body (c : ascii) : host_char c = true -> body_char c = true.
Proof.
  unfold host_char; intros H.
  apply orb_true_iff in H as [H|H]; [now apply label_char_body|].
  unfold body_char; rewrite H; apply orb_true_r.
Qed.

Lemma host_char_not_slash (c : ascii) : host_char c = true -> c <> "/"%char.
Proof. intros H ->; discriminate H. Qed.

Lemma host_chars (labels : list str) (tld : str) :
  Forall label_ok labels -> tld_ok tld ->
  forallb host_char (hostname labels ++ tld) = true.
Proof.
  intros Hls Htld; rewrite forallb_app; apply andb_true_iff; split.
  - induction Hls as [|l labels [_ Hl] _ IH]; [reflexivity|].
    change (hostname (l :: labels)) with ((l ++ lit ".") ++ hostname labels).
    rewrite !forallb_app, IH, (forallb_impl _ _ _ label_char_host Hl).
    reflexivity.
  - destruct Htld as [-> | [-> | ->]]; reflexivity.
Qed.

Lemma host_no_slash (h : str) :
  forallb host_char h = true -> ~ In "/"%char h.
Proof.
  intros H Hin; rewrite forallb_forall in H.
  now apply (host_char_not_slash (H _ Hin)).
Qed.

Lemma host_head (labels : list str) (tld : str) :
  labels <> [] -> Forall label_ok labels ->
  exists x b, hostname labels ++ tld = x :: b /\ label_char x = true.
Proof.
  intros Hne Hls.
  destruct labels as [|l labels]; [congruence|].
  inversion Hls as [|? ? [Hl Hlc]]; subst.
  destruct l as [|x l]; [congruence|].
  simpl in Hlc; apply andb_true_iff in Hlc as [Hx _].
  now exists x, (((l ++ lit ".") ++ hostname labels) ++ tld).
Qed.

Lemma path_rest_chars (path : str) :
  path_ok path -> forallb path_char (path_rest path) = true.
Proof. intros [-> | (q & -> & Hq)]; [reflexivity|exact Hq]. Qed.

(** [parse_input] on a scheme, a host name with its top-level name and a
    path: the domain is the host name, the subpath is the path without its
    first slash and without the slashes at its end. *)
Lemma grammar_parse (sch : str) (labels : list str) (tld path : str) :
  scheme_ok sch -> labels <> [] -> Forall label_ok labels ->
  tld_ok tld -> path_ok path ->
  parse_input (sch ++ hostname labels ++ tld ++ path)
  = (hostname labels ++ tld,
     rstrip_by (in_chars (lit "/")) (path_rest path)).
Proof.
  intros Hsch Hne Hls Htld Hpath.
  set (f := in_chars (lit "/")).
  set (h := hostname labels ++ tld).
  pose proof (host_chars Hls Htld) as Hh; fold h in Hh.
  pose proof (host_no_slash _ Hh) as Hslash.
  destruct (host_head tld Hne Hls) as (x & b & Eh & Hx); fold h in Eh.
  assert (Hb : forallb body_char (h ++ path) = true).
  { rewrite forallb_app, (forallb_impl _ _ _ host_char_body Hh).
    now rewrite path_chars. }
  assert (En : normalised (sch ++ h ++ path) = strip (lit "/") (h ++ path)).
  { unfold normalised; rewrite replace_schemes;
      auto using body_no_http, body_no_https. }
  assert (Hfx : f x = false)
    by (apply in_chars_slash_false, label_char_not_slash, Hx).
  assert (Hfix : rstrip_by f h = h).
  { apply rstrip_by_fixed; intros a y E.
    apply in_chars_slash_false; intros ->.
    apply Hslash; rewrite E, in_app_iff; simpl; auto. }
  replace (sch ++ hostname labels ++ tld ++ path) with (sch ++ h ++ path)
    by (unfold h; now rewrite <- app_assoc).
  unfold strip, strip_by in En; fold f in En.
  rewrite (@lstrip_by_fixed f (h ++ path)) in En
    by (rewrite Eh; now intros x' b' [= <- _]).
  destruct Hpath as [-> | (q & -> & Hq)].
  - rewrite app_nil_r in *; rewrite Hfix in En.
    rewrite parse_input_no_slash by now rewrite En.
    now rewrite En.
  - change (path_rest (lit "/" ++ q)) with q.
    destruct (forallb_or_existsb f q) as [Hall|Hex].
    + rewrite rstrip_by_all, Hfix in En by (simpl; now rewrite Hall).
      rewrite parse_input_no_slash by now rewrite En.
      now rewrite En, rstrip_by_nil.
    + change (h ++ lit "/" ++ q) with (h ++ ["/"%char] ++ q) in En.
      assert (Hex' : existsb (fun c => negb (f c)) (["/"%char] ++ q) = true)
        by (simpl; rewrite Hex; auto using orb_true_r).
      rewrite (@rstrip_by_app f h _ Hex'), (@rstrip_by_app f ["/"%char] q Hex)
        in En.
      now apply parse_input_at_slash.
Qed.

End GrammarParse.

Section ParseGrammarText.
Import GrammarParse.

(** X3: for a text of the address grammar, the domain that [parse_input]
    returns is exactly the host name with its top-level name (no scheme,
    no slash), and the subpath is the path without its first slash and
    without the slashes at its end. *)
Theorem parse_input_of_grammar_text
    (sch : str) (labels : list str) (tld path : str) :
  scheme_ok sch -> labels <> [] -> Forall label_ok labels ->
  tld_ok tld -> path_ok path ->
  parse_input (sch ++ hostname labels ++ tld ++ path)
  = (hostname labels ++ tld,
     rstrip_by (in_chars (lit "/")) (path_rest path)).
Proof. apply grammar_parse. Qed.

Lemma parse_input_of_grammar_text_witness :
  parse_input (lit "http://" ++ hostname [lit "shop"; lit "example"]
               ++ lit "co.uk" ++ lit "/a//b_c//")
  = (lit "shop.example.co.uk", lit "a//b_c").
Proof.
  apply (parse_input_of_grammar_text (sch:=lit "http://")
           (labels:=[lit "shop"; lit "example"]) (tld:=lit "co.uk")
           (path:=lit "/a//b_c//")).
  - right; left; reflexivity.
  - discriminate.
  - repeat constructor; discriminate.
  - right; left; reflexivity.
  - right; exists (lit "a//b_c//"); split; reflexivity.
Defined.

End ParseGrammarText.

(** ** What reaches [validate_input], and what it lets through *)

Module CallerFacts.
Import ValidateFacts ParseFacts GrammarFacts NavigationFacts StripMore.

Lemma body_char_not_space (c : ascii) :
  body_char c = true -> isspace c = false.
Proof.
  destruct c as [[] [] [] [] [] [] [] []]; intros H;
    vm_compute in H |- *; congruence.
Qed.

Lemma grammar_no_space (g : str) (c : ascii) :
  address_grammar g -> In c g -> isspace c = false.
Proof.
  intros H Hin; apply grammar_body in H
    as (sch & body & x & b & -> & Hsch & _ & _ & Hb).
  apply in_app_iff in Hin as [Hin|Hin].
  - destruct Hsch as [-> | [-> | ->]]; simpl in Hin;
      repeat (destruct Hin as [<-|Hin]; [reflexivity|]); destruct Hin.
  - rewrite forallb_forall in Hb; apply body_char_not_space; auto.
Qed.

(** White space is stripped from neither end of a text of the grammar. *)
Lemma strip_ws_grammar (g : str) : address_grammar g -> strip_ws g = g.
Proof.
  intros H; apply strip_by_fixed; split.
  - intros x b ->; eapply grammar_no_space; [exact H|simpl; auto].
  - intros a x ->; eapply grammar_no_space; [exact H|].
    rewrite in_app_iff; simpl; auto.
Qed.

Lemma strip_ws_grammar_LF (g : str) :
  address_grammar g -> strip_ws (g ++ [LF]) = g.
Proof.
  intros H; unfold strip_ws, strip_by.
  pose proof (strip_ws_grammar H) as E; unfold strip_ws, strip_by in E.
  assert (Hl : lstrip_by isspace g = g).
  { apply lstrip_by_fixed; intros x b ->.
    eapply grammar_no_space; [exact H|simpl; auto]. }
  rewrite Hl in E.
  destruct g as [|x g]; [reflexivity|].
  assert (Hx : isspace x = false)
    by (eapply grammar_no_space; [exact H|simpl; auto]).
  cbn [app lstrip_by]; rewrite Hx.
  change (x :: g ++ [LF]) with ((x :: g) ++ [LF]).
  now rewrite rstrip_by_all.
Qed.

Lemma first_line_no_LF (s : str) : ~ In LF (first_line s).
Proof.
  induction s as [|c s IH]; simpl; [tauto|].
  destruct (Ascii.eqb_spec c LF); simpl; [tauto|].
  intros [?|?]; auto.
Qed.

Lemma first_line_before_LF (g r : str) :
  ~ In LF g -> first_line (g ++ LF :: r) = g.
Proof.
  induction g as [|c g IH]; simpl; intros H.
  - reflexivity.
  - destruct (Ascii.eqb_spec c LF) as [->|_]; [tauto|].
    rewrite IH; tauto.
Qed.

(** What an accepted text is to both callers: the text of the grammar in
    it, whether a line feed follows or not. *)
Lemma validated_core (a : str) :
  matched (validate_input a) = true ->
  exists g, address_grammar g /\ strip_ws a = g /\ first_line a = g.
Proof.
  intros H; apply validate_input_accepts in H as (g & Hg & [-> | ->]);
    exists g; repeat split; auto.
  - now apply strip_ws_grammar.
  - apply first_line_all, (grammar_no_LF Hg).
  - now apply strip_ws_grammar_LF.
  - apply first_line_before_LF, (grammar_no_LF Hg).
Qed.

Lemma strip_ws_no_final_LF (text a : str) : strip_ws text <> a ++ [LF].
Proof.
  intros E.
  destruct (strip_by_spec isspace text) as (l & t & _ & _ & _ & _ & Hlast).
  fold (strip_ws text) in Hlast.
  now specialize (Hlast a LF E).
Qed.

Lemma submitted_text_grammar (text : str) :
  matched (validate_input (strip_ws text)) = true ->
  address_grammar (strip_ws text).
Proof.
  intros H; apply validate_input_accepts in H as (g & Hg & [-> | E]);
    [assumption|].
  now apply strip_ws_no_final_LF in E.
Qed.

(** Group 1 of a match of the hook's pattern: a first line, not empty. *)
Lemma navigation_group_line (url : str) (m : captures) (u : str) :
  re_match navigation_pattern url = Some m -> group m 1 = Some u ->
  exists r, after_scheme url = Some r /\ u = first_line r /\ u <> [].
Proof.
  rewrite navigation_match; intros Hm Hu.
  destruct (after_scheme url) as [r|]; [|discriminate].
  exists r; destruct (first_line r) as [|c l] eqn:E; [discriminate|].
  injection Hm as <-; simpl in Hu; injection Hu as <-.
  repeat split; discriminate.
Qed.

Lemma linked_text_grammar (url : str) (m : captures) (u : str) :
  re_match navigation_pattern url = Some m -> group m 1 = Some u ->
  matched (validate_input u) = true -> address_grammar u.
Proof.
  intros Hm Hu Hv.
  destruct (navigation_group_line _ Hm Hu) as (r & _ & -> & _).
  apply validate_input_without_LF; auto using first_line_no_LF.
Qed.

End CallerFacts.

Section Validated.
Import ValidateFacts NavigationFacts LoadPageFacts CallerFacts.

(** X4: [validate_input] accepts exactly the texts of the address grammar
    and those texts followed by one line feed. *)
Theorem validate_input_language (s : str) :
  matched (validate_input s) = true <->
  exists g, address_grammar g /\ (s = g \/ s = g ++ [LF]).
Proof. apply validate_input_accepts. Qed.

Lemma validate_input_language_witness :
  matched (validate_input (lit "https://a-b.example.org/x_y/")) = true /\
  exists g, address_grammar g /\
            (lit "https://a-b.example.org/x_y/" = g \/
             lit "https://a-b.example.org/x_y/" = g ++ [LF]).
Proof.
  assert (V : matched (validate_input (lit "https://a-b.example.org/x_y/")) = true)
    by reflexivity.
  split; [exact V|].
  exact (proj1 (validate_input_language (lit "https://a-b.example.org/x_y/")) V).
Defined.

(** X5: both callers of [validate_input] act on the address grammar
    itself; the final line feed that [validate_input] lets through never
    comes into play.  For every text of the address bar that is no start
    token, [load_page] rewrites, to the parts of the stripped text, when
    the stripped text is a text of the grammar, and shows the
    [Invalid domain format] document when it is not.  For every URL that
    is not under the base URL, the navigation hook redirects, to the
    parts of the first line behind the scheme, when the URL has the scheme
    [http://] or [https://] and that line is a text of the grammar; in
    every other case it returns [False] and leaves the tab as it is. *)
Theorem callers_accept_grammar_texts_only :
  (forall text t,
     ~ is_start_token (strip_ws text) ->
     (address_grammar (strip_ws text) /\
      exec (load_page text) t
      = submitted (fst (parse_input (strip_ws text)))
                  (snd (parse_input (strip_ws text))) t) \/
     (~ address_grammar (strip_ws text) /\
      exec (load_page text) t
      = showing_error (lit "Invalid domain format") t)) /\
  (forall url t,
     startswith GITHUB_BASE url = false ->
     match after_scheme url with
     | Some r =>
         (address_grammar (first_line r) /\
          acceptNavigationRequest url t
          = (false,
             redirected
               (Rewritten_Target (fst (parse_input (first_line r)))
                                 (snd (parse_input (first_line r))))
               (Virtual_Address (fst (parse_input (first_line r)))
                                (snd (parse_input (first_line r))))
               t)) \/
         (~ address_grammar (first_line r) /\
          acceptNavigationRequest url t = (false, t))
     | None => acceptNavigationRequest url t = (false, t)
     end).
Proof.
  split.
  - intros text t Hs.
    destruct (matched (validate_input (strip_ws text))) eqn:Ev.
    + left; split; [now apply submitted_text_grammar|].
      now apply load_page_valid.
    + right; split; [|now apply load_page_invalid].
      intros G; apply grammar_validates in G; congruence.
  - intros url t Hb; unfold acceptNavigationRequest.
    rewrite Hb, navigation_match.
    destruct (after_scheme url) as [r|]; [|reflexivity].
    pose proof (first_line_no_LF r) as Hlf.
    destruct (first_line r) as [|c l] eqn:El.
    + right; split; [|reflexivity].
      intros G; apply grammar_validates in G; discriminate G.
    + cbn [group Nat.eqb].
      destruct (matched (validate_input (c :: l))) eqn:Ev.
      * left; split; [now apply validate_input_without_LF|].
        apply acceptNavigationRequest_redirect.
      * right; split; [|reflexivity].
        intros G; apply grammar_validates in G; congruence.
Qed.

Lemma callers_accept_grammar_texts_only_witness :
  ((address_grammar (strip_ws (lit " example.com/a" ++ [LF])) /\
    exec (load_page (lit " example.com/a" ++ [LF])) new_tab
    = submitted
        (fst (parse_input (strip_ws (lit " example.com/a" ++ [LF]))))
        (snd (parse_input (strip_ws (lit " example.com/a" ++ [LF]))))
        new_tab) \/
   (~ address_grammar (strip_ws (lit " example.com/a" ++ [LF])) /\
    exec (load_page (lit " example.com/a" ++ [LF])) new_tab
    = showing_error (lit "Invalid domain format") new_tab)) /\
  acceptNavigationRequest (lit "ftp://example.com") new_tab
  = (false, new_tab).
Proof.
  split.
  - apply (proj1 callers_accept_grammar_texts_only
             (lit " example.com/a" ++ [LF]) new_tab).
    intros [E|E]; discriminate E.
  - exact (proj2 callers_accept_grammar_texts_only
             (lit "ftp://example.com") new_tab eq_refl).
Defined.

(** X9: a text that [validate_input] accepts is never one of the start
    tokens, not even in another case: the start-page shortcut of
    [load_page] shadows no valid address. *)
Theorem valid_address_is_no_start_token (u : str) :
  matched (validate_input u) = true -> ~ is_start_token u.
Proof. apply validated_not_token. Qed.

Lemma valid_address_is_no_start_token_witness :
  ~ is_start_token (lit "Start.com").
Proof.
  exact (@valid_address_is_no_start_token (lit "Start.com") eq_refl).
Defined.

End Validated.

(** ** Tab labels *)

Section TabTitle.

(** X1: [update_tab_title] labels the tab with the first 40 characters of
    the title, or with [Untitled] when the title is empty or white space
    only; the label always has between 1 and 40 characters (it may still
    be blank, when the title begins with 40 white-space characters), and
    nothing else of the tab changes. *)
Theorem update_tab_title_label (title : str) (t : BrowserTab) :
  let t' := exec (update_tab_title title) t in
  1 <= List.length (tab_text t') <= 40 /\
  (strip_ws title = [] -> tab_text t' = lit "Untitled") /\
  (strip_ws title <> [] -> tab_text t' = firstn 40 title) /\
  (strip_ws title <> [] -> List.length title <= 40 -> tab_text t' = title) /\
  virtual_url t' = virtual_url t /\ location t' = location t /\
  pending t' = pending t.
Proof.
  unfold update_tab_title.
  destruct title as [|c title]; [cbn; repeat split; auto; try lia; tauto|].
  cbn [nonempty andb].
  destruct (strip_ws (c :: title)) as [|y s] eqn:E; cbn [nonempty].
  - cbn; repeat split; auto; try lia; congruence.
  - cbn [exec setTabText snd tab_text virtual_url location pending].
    repeat split; auto; try discriminate.
    + cbn; lia.
    + rewrite length_firstn; lia.
    + intros _ Hlen; apply firstn_all2; exact Hlen.
Qed.

Lemma update_tab_title_label_witness :
  tab_text (exec (update_tab_title (lit "   ")) new_tab) = lit "Untitled" /\
  tab_text (exec (update_tab_title (lit " My site ")) new_tab) = lit " My site ".
Proof.
  split.
  - exact (proj1 (proj2 (update_tab_title_label (lit "   ") new_tab)) eq_refl).
  - apply (proj1 (proj2 (proj2 (proj2
             (update_tab_title_label (lit " My site ") new_tab))))).
    + discriminate.
    + simpl; lia.
Defined.

End TabTitle.

(** ** [parse_input] on any text *)

Section ParseAnyText.
Import ParseFacts.

(** X2: whatever the input, validated or not, the domain that
    [parse_input] returns has no slash, the subpath does not end with a
    slash, domain and subpath joined again neither begin nor end with a
    slash, and the subpath is empty whenever the domain is (so the empty
    text, and a text of slashes only, give two empty parts). *)
Theorem parse_input_shape (s : str) :
  ~ In "/"%char (fst (parse_input s)) /\
  (forall a x, snd (parse_input s) = a ++ [x] -> x <> "/"%char) /\
  no_edge_slash (rejoin (fst (parse_input s)) (snd (parse_input s))) /\
  (fst (parse_input s) = [] -> snd (parse_input s) = []).
Proof.
  change rejoin with Virtual_Address.
  pose proof (normalised_trimmed s) as Htrim.
  rewrite parse_input_rejoin.
  destruct (parse_input_cases s) as [[Hno ->] | (a & b & E & Ha & ->)];
    cbn [fst snd]; repeat split; try apply Htrim; auto.
  - intros a x E; destruct a; discriminate E.
  - intros a' x Eb; destruct Htrim as [_ Hlast].
    apply (Hlast (a ++ "/"%char :: a') x).
    rewrite E, Eb, <- app_assoc; reflexivity.
  - intros ->; exfalso.
    destruct Htrim as [Hfirst _]; now apply (Hfirst "/"%char b).
Qed.

Lemma parse_input_shape_witness :
  snd (parse_input (lit "///")) = [] /\
  (forall a x, snd (parse_input (lit "a b/c d//")) = a ++ [x] -> x <> "/"%char).
Proof.
  split.
  - exact (proj2 (proj2 (proj2 (parse_input_shape (lit "///")))) eq_refl).
  - exact (proj1 (proj2 (parse_input_shape (lit "a b/c d//")))).
Defined.

End ParseAnyText.

(** ** The characters of a rewritten target *)

Module TargetFacts.
Import ValidateFacts ParseFacts GrammarFacts NavigationFacts LoadPageFacts
       StripMore GrammarParse CallerFacts.

Lemma no_dotdot_app (u v : str) (b : bool) :
  no_dotdot b (u ++ v) = no_dotdot b u && no_dotdot (ends_dot b u) v.
Proof.
  revert b; induction u as [|c u IH]; intros b; simpl; [reflexivity|].
  destruct (is_dot c); rewrite IH; [apply andb_assoc|reflexivity].
Qed.

Lemma ends_dot_app (u v : str) (b : bool) :
  ends_dot b (u ++ v) = ends_dot (ends_dot b u) v.
Proof. revert b; induction u as [|c u IH]; intros b; simpl; auto. Qed.

Lemma no_dotdot_occurs (s : str) (b : bool) :
  no_dotdot b s = true -> ~ occurs (lit "..") s.
Proof.
  intros H (a & r & ->).
  rewrite no_dotdot_app in H; apply andb_true_iff in H as [_ H].
  cbn in H; now rewrite andb_false_r in H.
Qed.

Lemma dotfree_no_dotdot (v : str) (b : bool) :
  forallb (fun c => negb (is_dot c)) v = true -> no_dotdot b v = true.
Proof.
  revert b; induction v as [|c v IH]; intros b; simpl; [reflexivity|].
  intros H; apply andb_true_iff in H as [Hc Hv].
  destruct (is_dot c); [discriminate|auto].
Qed.

Lemma dotfree_ends_dot (v : str) (b : bool) :
  forallb (fun c => negb (is_dot c)) v = true -> v <> [] ->
  ends_dot b v = false.
Proof.
  revert b; induction v as [|c v IH]; intros b; simpl; [congruence|].
  intros H _; apply andb_true_iff in H as [Hc Hv].
  destruct (is_dot c); [discriminate|].
  destruct v; [reflexivity|apply IH; [assumption|discriminate]].
Qed.

Lemma path_char_no_dot (c : ascii) :
  path_char c = true -> negb (is_dot c) = true.
Proof.
  intros H; unfold is_dot.
  destruct (Ascii.eqb_spec c ".") as [->|]; [discriminate H|reflexivity].
Qed.

Lemma label_char_no_dot (c : ascii) :
  label_char c = true -> negb (is_dot c) = true.
Proof.
  intros H; unfold is_dot.
  destruct (Ascii.eqb_spec c ".") as [->|]; [discriminate H|reflexivity].
Qed.

Lemma hostname_dots (labels : list str) :
  Forall label_ok labels ->
  forall b, no_dotdot b (hostname labels) = true /\
            (labels <> [] -> ends_dot b (hostname labels) = true).
Proof.
  induction 1 as [|l labels [Hne Hl] _ IH]; intros b; [split; [reflexivity|congruence]|].
  change (hostname (l :: labels)) with ((l ++ lit ".") ++ hostname labels).
  rewrite <- app_assoc.
  pose proof (forallb_impl _ _ _ label_char_no_dot Hl) as Hd.
  rewrite no_dotdot_app, ends_dot_app, (@dotfree_no_dotdot l b Hd),
    (@dotfree_ends_dot l b Hd Hne).
  cbn [lit list_ascii_of_string app no_dotdot ends_dot].
  change (is_dot ".") with true; cbn [negb andb].
  destruct (IH true) as [Hn He]; split; [exact Hn|intros _].
  destruct labels as [|l' labels]; [reflexivity|apply He; discriminate].
Qed.

Lemma host_dots (labels : list str) (tld : str) :
  labels <> [] -> Forall label_ok labels -> tld_ok tld ->
  no_dotdot false (hostname labels ++ tld) = true /\
  ends_dot false (hostname labels ++ tld) = false.
Proof.
  intros Hne Hls Htld.
  destruct (hostname_dots Hls false) as [Hn He].
  rewrite no_dotdot_app, ends_dot_app, Hn, (He Hne).
  destruct Htld as [-> | [-> | ->]]; split; reflexivity.
Qed.

(** The text behind the base URL in the target rewritten from a text of
    the grammar. *)
Lemma grammar_target (g : str) :
  address_grammar g ->
  exists path,
    Rewritten_Target (fst (parse_input g)) (snd (parse_input g))
    = GITHUB_BASE ++ path /\
    forallb body_char path = true /\
    no_dotdot false (GITHUB_BASE ++ path) = true.
Proof.
  intros (sch & labels & tld & pth & -> & Hsch & Hne & Hls & Htld & Hpath).
  rewrite grammar_parse by assumption; cbn [fst snd].
  set (h := hostname labels ++ tld).
  set (p := rstrip_by (in_chars (lit "/")) (path_rest pth)).
  destruct (host_dots Hne Hls Htld) as [Hn He]; fold h in Hn, He.
  pose proof (forallb_impl _ _ _ host_char_body (host_chars Hls Htld)) as Hh.
  fold h in Hh.
  assert (Hp : forallb path_char p = true).
  { pose proof (path_rest_chars Hpath) as Hq.
    rewrite forallb_forall in *; intros c Hc; apply Hq.
    now apply rstrip_by_In in Hc. }
  assert (Hbase : no_dotdot false GITHUB_BASE = true) by reflexivity.
  assert (Hbase' : ends_dot false GITHUB_BASE = false) by reflexivity.
  pose proof (f_equal fst (rewritten_pair h p)) as E.
  destruct p as [|c p]; cbn [nonempty fst] in E; rewrite <- E.
  - exists (h ++ lit "/index.html"); repeat split.
    + now rewrite forallb_app, Hh.
    + now rewrite !no_dotdot_app, Hbase, Hbase', Hn, He.
  - exists (h ++ lit "/" ++ (c :: p) ++ lit ".html"); repeat split.
    + rewrite !forallb_app, Hh, (forallb_impl _ _ _ path_char_body Hp).
      reflexivity.
    + pose proof (forallb_impl _ _ _ path_char_no_dot Hp) as Hd.
      rewrite !no_dotdot_app, Hbase, Hbase', Hn, He.
      change (ends_dot false (lit "/")) with false.
      change (no_dotdot false (lit "/")) with true.
      rewrite (@dotfree_no_dotdot (c :: p) false Hd),
        (@dotfree_ends_dot (c :: p) false Hd) by discriminate.
      reflexivity.
Qed.

End TargetFacts.

Section TargetCharacters.
Import NavigationFacts LoadPageFacts CallerFacts TargetFacts.

(** X6: every URL that [load_page] loads for an accepted address, and
    every URL the navigation hook redirects to, is the base URL followed
    by letters, digits, hyphens, underscores, slashes and single dots
    only: it has no query, fragment, colon or white space behind the
    base, and no [..] that would lead out of the base directory.  The
    hook, whatever the target, either leaves the tab as it is or loads
    such a URL. *)
Theorem rewritten_target_characters :
  (forall text t,
     matched (validate_input (strip_ws text)) = true ->
     exists path,
       location (exec (load_page text) t) = Remote (GITHUB_BASE ++ path) /\
       forallb body_char path = true /\
       ~ occurs (lit "..") (GITHUB_BASE ++ path)) /\
  (forall url t,
     snd (acceptNavigationRequest url t) = t \/
     exists path,
       location (snd (acceptNavigationRequest url t))
       = Remote (GITHUB_BASE ++ path) /\
       forallb body_char path = true /\
       ~ occurs (lit "..") (GITHUB_BASE ++ path)).
Proof.
  split.
  - intros text t Hv.
    destruct (grammar_target (submitted_text_grammar _ Hv))
      as (path & E & Hc & Hd).
    exists path; rewrite load_page_valid by assumption.
    repeat split; auto;
      [unfold submitted; cbn [location]; now rewrite E
      |eapply no_dotdot_occurs; eauto].
  - intros url t; unfold acceptNavigationRequest.
    destruct (startswith GITHUB_BASE url); [now left|].
    destruct (re_match navigation_pattern url) as [m|] eqn:Hm; [|now left].
    destruct (group m 1) as [u|] eqn:Hu; [|now left].
    destruct (matched (validate_input u)) eqn:Hv; [|now left].
    right; rewrite acceptNavigationRequest_redirect.
    destruct (grammar_target (linked_text_grammar _ Hm Hu Hv))
      as (path & E & Hc & Hd).
    exists path; repeat split; auto;
      [unfold redirected; cbn [snd location]; now rewrite E
      |eapply no_dotdot_occurs; eauto].
Qed.

Lemma rewritten_target_characters_witness :
  exists path,
    location (exec (load_page (lit "a.b.example.co.uk/x-1/y_2/")) new_tab)
    = Remote (GITHUB_BASE ++ path) /\
    forallb body_char path = true /\
    ~ occurs (lit "..") (GITHUB_BASE ++ path).
Proof.
  exact (proj1 rewritten_target_characters
           (lit "a.b.example.co.uk/x-1/y_2/") new_tab eq_refl).
Defined.

End TargetCharacters.

(** ** Submitting, synchronising and submitting again *)

Module ResubmitFacts.
Import ValidateFacts ParseFacts GrammarFacts NavigationFacts LoadPageFacts
       StripMore GrammarParse CallerFacts.

(** An occurrence of [p] in two texts joined at a character that [p] does
    not have lies in one of the two. *)
Lemma occurs_app_split (p a b : str) (x : ascii) :
  occurs p (a ++ x :: b) -> ~ In x p -> occurs p a \/ occurs p b.
Proof.
  intros (u & v & E) Hx.
  apply app_eq_app in E as [l [[Ea E] | [Eu E]]].
  - left.
    apply app_eq_app in E as [l2 [[Ep E] | [El _]]].
    + destruct l2 as [|y l2].
      * rewrite app_nil_r in Ep; subst p a; exists u, []; now rewrite app_nil_r.
      * injection E as -> _; exfalso; apply Hx.
        rewrite Ep, in_app_iff; simpl; auto.
    + subst l a; now exists u, l2.
  - destruct l as [|y l].
    + simpl in E; destruct p as [|y p].
      * left; now exists [], a.
      * injection E as -> _; exfalso; apply Hx; simpl; auto.
    + injection E as _ ->; right; now exists l, v.
Qed.

Lemma colon_in_base : In ":"%char GITHUB_BASE.
Proof. do 5 right; left; reflexivity. Qed.

(** [sync_virtual_url] on the base URL, a stem and [.html], when neither
    the base URL nor [.html] comes again. *)
Lemma sync_virtual_url_stem (stem : str) (t : BrowserTab) :
  ~ In ":"%char stem -> ~ occurs (lit ".html") stem ->
  exec (sync_virtual_url (GITHUB_BASE ++ stem ++ lit ".html")) t
  = mkTab (strip (lit "/") stem) (location t) (tab_text t) (pending t)
          (calls t ++ [SetVirtualUrl (strip (lit "/") stem)]).
Proof.
  intros Hcolon Hhtml; unfold sync_virtual_url.
  assert (Hb : ~ occurs GITHUB_BASE (stem ++ lit ".html")).
  { apply (@not_occurs_by_char _ _ ":"%char); [apply colon_in_base|].
    rewrite in_app_iff; intros [H|H]; [auto|].
    simpl in H; intuition discriminate. }
  rewrite startswith_app, (replace_leading _ _ GITHUB_BASE_nonempty).
  rewrite (replace_absent _ GITHUB_BASE_nonempty Hb).
  change (lit "" ++ stem ++ lit ".html") with (stem ++ lit ".html").
  change (lit ".html") with ("."%char :: lit "html").
  rewrite replace_only_suffix, app_nil_r; [reflexivity| |exact Hhtml].
  simpl; intuition discriminate.
Qed.

(** The parts [parse_input] makes of a text of the grammar. *)
Lemma grammar_parts (g : str) :
  address_grammar g ->
  exists labels tld p,
    labels <> [] /\ Forall label_ok labels /\ tld_ok tld /\
    forallb path_char p = true /\
    (forall a x, p = a ++ [x] -> x <> "/"%char) /\
    parse_input g = (hostname labels ++ tld, p).
Proof.
  intros (sch & labels & tld & pth & -> & Hsch & Hne & Hls & Htld & Hpath).
  exists labels, tld, (rstrip_by (in_chars (lit "/")) (path_rest pth)).
  repeat split; auto using grammar_parse.
  - pose proof (path_rest_chars Hpath) as Hq.
    rewrite forallb_forall in *; intros c Hc; apply Hq.
    now apply rstrip_by_In in Hc.
  - intros a x E; apply in_chars_slash_false.
    now apply rstrip_by_last in E.
Qed.

Lemma path_rstrip_fixed (p : str) :
  (forall a x, p = a ++ [x] -> x <> "/"%char) ->
  rstrip_by (in_chars (lit "/")) p = p.
Proof.
  intros H; apply rstrip_by_fixed; intros a x E.
  apply in_chars_slash_false; eauto.
Qed.

(** Host name and subpath joined again are a text of the grammar, and
    parse to the same two parts. *)
Lemma parts_virtual_address (labels : list str) (tld p : str) :
  labels <> [] -> Forall label_ok labels -> tld_ok tld ->
  forallb path_char p = true ->
  (forall a x, p = a ++ [x] -> x <> "/"%char) ->
  address_grammar (Virtual_Address (hostname labels ++ tld) p) /\
  parse_input (Virtual_Address (hostname labels ++ tld) p)
  = (hostname labels ++ tld, p).
Proof.
  intros Hne Hls Htld Hp Hlast.
  assert (Hpath : path_ok (match p with [] => [] | _ :: _ => lit "/" ++ p end)).
  { destruct p; [now left|right; eauto]. }
  assert (E : Virtual_Address (hostname labels ++ tld) p
              = lit "" ++ hostname labels ++ tld
                ++ match p with [] => [] | _ :: _ => lit "/" ++ p end).
  { destruct p; simpl; [now rewrite !app_nil_r|now rewrite <- app_assoc]. }
  rewrite E; split.
  - exists (lit ""), labels, tld, (match p with [] => [] | _ :: _ => lit "/" ++ p end).
    repeat split; auto; now left.
  - rewrite grammar_parse; auto; [|now left].
    f_equal; destruct p as [|c p]; [reflexivity|].
    now apply path_rstrip_fixed.
Qed.

Lemma parts_index (labels : list str) (tld : str) :
  labels <> [] -> Forall label_ok labels -> tld_ok tld ->
  address_grammar ((hostname labels ++ tld) ++ lit "/index") /\
  parse_input ((hostname labels ++ tld) ++ lit "/index")
  = (hostname labels ++ tld, lit "index").
Proof.
  intros Hne Hls Htld.
  assert (Hpath : path_ok (lit "/index"))
    by (right; exists (lit "index"); split; reflexivity).
  replace ((hostname labels ++ tld) ++ lit "/index")
    with (lit "" ++ hostname labels ++ tld ++ lit "/index")
    by (simpl; now rewrite app_assoc).
  split.
  - exists (lit ""), labels, tld, (lit "/index"); repeat split; auto; now left.
  - rewrite grammar_parse; auto; now left.
Qed.

Lemma host_no_colon (labels : list str) (tld : str) :
  Forall label_ok labels -> tld_ok tld ->
  ~ In ":"%char (hostname labels ++ tld).
Proof.
  intros Hls Htld Hin.
  pose proof (forallb_impl _ _ _ host_char_body (host_chars Hls Htld)) as H.
  rewrite forallb_forall in H; now apply (body_char_not_colon (H _ Hin)).
Qed.

Lemma path_no_colon (p : str) :
  forallb path_char p = true -> ~ In ":"%char p.
Proof.
  intros H Hin; rewrite forallb_forall in H.
  now apply (body_char_not_colon (path_char_body _ (H _ Hin))).
Qed.

(** The virtual address after the loaded target has been reported by
    [urlChanged]. *)
Lemma synced_after_submission (labels : list str) (tld p : str) (t : BrowserTab) :
  labels <> [] -> Forall label_ok labels -> tld_ok tld ->
  forallb path_char p = true ->
  (forall a x, p = a ++ [x] -> x <> "/"%char) ->
  ~ occurs (lit ".html") (Virtual_Address (hostname labels ++ tld) p) ->
  virtual_url
    (exec (sync_virtual_url (Rewritten_Target (hostname labels ++ tld) p)) t)
  = match p with
    | [] => (hostname labels ++ tld) ++ lit "/index"
    | _ :: _ => Virtual_Address (hostname labels ++ tld) p
    end.
Proof.
  intros Hne Hls Htld Hp Hlast Hhtml.
  set (h := hostname labels ++ tld) in *.
  destruct (host_head tld Hne Hls) as (x & b & Eh & Hx); fold h in Eh.
  pose proof (host_no_colon Hls Htld) as Hhc; fold h in Hhc.
  assert (Hfx : in_chars (lit "/") x = false)
    by (apply in_chars_slash_false, label_char_not_slash, Hx).
  pose proof (f_equal fst (rewritten_pair h p)) as E.
  destruct p as [|c p]; cbn [nonempty fst] in E; rewrite <- E.
  - change (h ++ lit "/index.html") with (h ++ lit "/index" ++ lit ".html").
    rewrite (app_assoc h), sync_virtual_url_stem; cbn [virtual_url].
    + apply strip_by_fixed; split.
      * intros x' b' E'; rewrite Eh in E'; injection E' as <- _; exact Hfx.
      * intros a y E'.
        change (lit "/index") with (lit "/inde" ++ ["x"%char]) in E'.
        rewrite app_assoc in E'; now apply app_inj_tail in E' as [_ <-].
    + rewrite in_app_iff; intros [H|H]; [auto|].
      simpl in H; intuition discriminate.
    + intros Ho; apply occurs_app_split in Ho as [Ho|Ho].
      * now apply Hhtml.
      * apply contains_occurs in Ho; discriminate Ho.
      * simpl; intuition discriminate.
  - rewrite (app_assoc (lit "/")), (app_assoc h), sync_virtual_url_stem;
      cbn [virtual_url].
    + change (Virtual_Address h (c :: p)) with (h ++ lit "/" ++ c :: p).
      apply strip_by_fixed; split.
      * intros x' b' E'; rewrite Eh in E'; injection E' as <- _; exact Hfx.
      * intros a y E'.
        destruct (@exists_last _ (c :: p)) as (a' & y' & Ep); [discriminate|].
        rewrite Ep, !app_assoc in E'; apply app_inj_tail in E' as [_ <-].
        apply in_chars_slash_false; eauto.
    + rewrite !in_app_iff; intros [H|[H|H]]; [auto| |].
      * simpl in H; intuition discriminate.
      * now apply (path_no_colon _ Hp).
    + exact Hhtml.
Qed.

End ResubmitFacts.

Module LinkFacts.
Import ValidateFacts ParseFacts GrammarFacts NavigationFacts LoadPageFacts
       StripMore GrammarParse CallerFacts ResubmitFacts.

Lemma load_page_grammar (g : str) (t : BrowserTab) :
  address_grammar g ->
  exec (load_page g) t
  = submitted (fst (parse_input g)) (snd (parse_input g)) t.
Proof.
  intros Hg; pose proof (strip_ws_grammar Hg) as E.
  rewrite load_page_valid; rewrite E; auto using grammar_validates.
Qed.

Lemma sync_virtual_url_location (url : str) (t : BrowserTab) :
  location (exec (sync_virtual_url url) t) = location t.
Proof. unfold sync_virtual_url; now destruct (startswith GITHUB_BASE url). Qed.

(** No text of the grammar begins with the host and directory of the base
    URL: [io] is none of the top-level names. *)
Lemma grammar_not_base (g r : str) :
  address_grammar g -> g <> lit "datlittladucky.github.io" ++ "/"%char :: r.
Proof.
  intros (sch & labels & tld & pth & -> & Hsch & Hne & Hls & Htld & Hpath) E.
  pose proof (host_no_slash _ (host_chars Hls Htld)) as Hslash.
  destruct Hsch as [-> | [-> | ->]]; try discriminate E.
  change (lit "" ++ hostname labels ++ tld ++ pth)
    with (hostname labels ++ tld ++ pth) in E.
  rewrite app_assoc in E.
  destruct Hpath as [-> | (q & -> & _)].
  - rewrite app_nil_r in E; apply Hslash.
    rewrite E, in_app_iff; simpl; auto.
  - apply first_slash_unique in E as [E _]; auto;
      [|simpl; intuition discriminate].
    apply (f_equal (@rev ascii)) in E; rewrite rev_app_distr in E.
    destruct Htld as [-> | [-> | ->]]; discriminate E.
Qed.

Lemma validated_not_base (a r : str) :
  matched (validate_input a) = true ->
  a <> lit "datlittladucky.github.io/Websites/" ++ r.
Proof.
  intros H E; apply validate_input_accepts in H as (g & Hg & [-> | ->]).
  - now apply (grammar_not_base (r:=lit "Websites/" ++ r) Hg).
  - destruct (@exists_last _ (lit "Websites/" ++ r)) as (r' & y & Er);
      [discriminate|].
    change (lit "datlittladucky.github.io/Websites/" ++ r)
      with (lit "datlittladucky.github.io/" ++ lit "Websites/" ++ r) in E.
    rewrite Er, app_assoc in E; apply app_inj_tail in E as [E _].
    now apply (grammar_not_base (r:=r') Hg).
Qed.

Lemma linked_not_under_host (sch a : str) :
  sch = http \/ sch = https -> matched (validate_input a) = true ->
  startswith GITHUB_BASE (sch ++ a) = false.
Proof.
  intros [-> | ->] Hv; [reflexivity|].
  change (startswith GITHUB_BASE (https ++ a))
    with (startswith (lit "datlittladucky.github.io/Websites/") a).
  destruct (startswith (lit "datlittladucky.github.io/Websites/") a) eqn:E;
    [|reflexivity].
  apply startswith_true in E as [r E]; now apply validated_not_base in E.
Qed.

Lemma linked_after_scheme (sch a : str) :
  sch = http \/ sch = https -> after_scheme (sch ++ a) = Some a.
Proof.
  intros [-> | ->]; unfold after_scheme.
  - change (strip_prefix (lit "https://") (http ++ a)) with (@None str).
    apply strip_prefix_app.
  - fold https; now rewrite strip_prefix_app.
Qed.

(** The hook on a link to an accepted address. *)
Lemma hook_on_link (sch a g : str) (t : BrowserTab) :
  sch = http \/ sch = https ->
  matched (validate_input a) = true ->
  address_grammar g -> first_line a = g ->
  acceptNavigationRequest (sch ++ a) t
  = (false,
     redirected (Rewritten_Target (fst (parse_input g)) (snd (parse_input g)))
                (Virtual_Address (fst (parse_input g)) (snd (parse_input g)))
                t).
Proof.
  intros Hsch Hv Hg El; unfold acceptNavigationRequest.
  rewrite (@linked_not_under_host sch a Hsch Hv), navigation_match,
    (@linked_after_scheme sch a Hsch), El.
  destruct (grammar_body Hg) as (s' & body & x & b & -> & _ & _).
  destruct (s' ++ body) as [|c l] eqn:Eg.
  - apply grammar_validates in Hg; discriminate Hg.
  - cbn [group Nat.eqb]; rewrite (grammar_validates Hg).
    apply acceptNavigationRequest_redirect.
Qed.

End LinkFacts.

Section Composition.
Import ValidateFacts ParseFacts LoadPageFacts GrammarParse CallerFacts
       ResubmitFacts LinkFacts.

(** X7: after an accepted address has been submitted, the [urlChanged]
    signal for the target that was loaded makes [sync_virtual_url] set the
    virtual address again: to the same [domain/subpath] when the subpath
    is not empty, but to [domain/index] when it is empty (provided [.html]
    does not occur in the address itself). *)
Theorem virtual_address_after_url_changed (text : str) (t : BrowserTab) :
  matched (validate_input (strip_ws text)) = true ->
  ~ occurs (lit ".html")
      (Virtual_Address (fst (parse_input (strip_ws text)))
                       (snd (parse_input (strip_ws text)))) ->
  location (exec (load_page text) t)
  = Remote (Rewritten_Target (fst (parse_input (strip_ws text)))
                             (snd (parse_input (strip_ws text)))) /\
  virtual_url
    (handle (UrlChanged (Rewritten_Target (fst (parse_input (strip_ws text)))
                                          (snd (parse_input (strip_ws text)))))
            (exec (load_page text) t))
  = match snd (parse_input (strip_ws text)) with
    | [] => fst (parse_input (strip_ws text)) ++ lit "/index"
    | _ :: _ => virtual_url (exec (load_page text) t)
    end.
Proof.
  intros Hv Hhtml; rewrite load_page_valid by assumption.
  destruct (grammar_parts (submitted_text_grammar _ Hv))
    as (labels & tld & p & Hne & Hls & Htld & Hp & Hlast & E).
  rewrite E in *; cbn [fst snd handle] in *.
  split; [reflexivity|].
  rewrite synced_after_submission by assumption.
  now destruct p.
Qed.

Lemma virtual_address_after_url_changed_witness :
  virtual_url
    (handle (UrlChanged (lit "https://datlittladucky.github.io/Websites/example.com/index.html"))
            (exec (load_page (lit "example.com")) new_tab))
  = lit "example.com/index".
Proof.
  assert (Hhtml : ~ occurs (lit ".html")
                      (Virtual_Address
                         (fst (parse_input (strip_ws (lit "example.com"))))
                         (snd (parse_input (strip_ws (lit "example.com"))))))
    by (intros H; apply contains_occurs in H; discriminate H).
  exact (proj2 (@virtual_address_after_url_changed (lit "example.com") new_tab
                  eq_refl Hhtml)).
Defined.

(** X8: the virtual address that a submission leaves in the tab is itself
    an accepted address, and submitting it again loads the same target and
    leaves the same virtual address.  The same target is loaded when the
    virtual address is submitted after [urlChanged] has synchronised it
    (provided [.html] does not occur in it): [domain/index] leads to the
    [index.html] of the domain. *)
Theorem virtual_address_can_be_submitted_again (text : str) (t : BrowserTab) :
  matched (validate_input (strip_ws text)) = true ->
  let t1 := exec (load_page text) t in
  matched (validate_input (virtual_url t1)) = true /\
  location (exec (load_page (virtual_url t1)) t1) = location t1 /\
  virtual_url (exec (load_page (virtual_url t1)) t1) = virtual_url t1 /\
  (~ occurs (lit ".html") (virtual_url t1) ->
   forall url, location t1 = Remote url ->
   let t2 := handle (UrlChanged url) t1 in
   location (exec (load_page (virtual_url t2)) t2) = location t1).
Proof.
  intros Hv; cbv zeta; rewrite load_page_valid by assumption.
  destruct (grammar_parts (submitted_text_grammar _ Hv))
    as (labels & tld & p & Hne & Hls & Htld & Hp & Hlast & E).
  rewrite E; cbn [fst snd].
  set (h := hostname labels ++ tld).
  destruct (parts_virtual_address Hne Hls Htld Hp Hlast) as [Hg Ep].
  fold h in Hg, Ep.
  unfold submitted at 1 2 4 5 7; cbn [virtual_url location].
  repeat split.
  - now apply grammar_validates.
  - rewrite (load_page_grammar _ Hg), Ep; reflexivity.
  - rewrite (load_page_grammar _ Hg), Ep; reflexivity.
  - intros Hhtml url [= <-]; cbn [handle].
    set (t1 := submitted h p t).
    assert (Es : virtual_url (exec (sync_virtual_url (Rewritten_Target h p)) t1)
                 = match p with
                   | [] => h ++ lit "/index"
                   | _ :: _ => Virtual_Address h p
                   end)
      by (now apply synced_after_submission).
    rewrite Es; destruct p as [|c p].
    + destruct (@parts_index labels tld Hne Hls Htld) as [Hgi Epi].
      fold h in Hgi, Epi.
      rewrite (load_page_grammar _ Hgi), Epi; reflexivity.
    + rewrite (load_page_grammar _ Hg), Ep; reflexivity.
Qed.

Lemma virtual_address_can_be_submitted_again_witness :
  let t1 := exec (load_page (lit " https://example.org/a/b// ")) new_tab in
  virtual_url t1 = lit "example.org/a/b" /\
  location (exec (load_page (virtual_url t1)) t1) = location t1.
Proof.
  intros t1; split; [reflexivity|].
  exact (proj1 (proj2 (@virtual_address_can_be_submitted_again
                         (lit " https://example.org/a/b// ") new_tab eq_refl))).
Defined.

(** X12: a link to [http://] or [https://] followed by an address that
    [validate_input] accepts is rewritten by the navigation hook to the
    same target and the same virtual address that [load_page] gives when
    the address is typed into the address bar. *)
Theorem link_and_address_bar_agree (a sch : str) (t : BrowserTab) :
  matched (validate_input a) = true ->
  sch = lit "http://" \/ sch = lit "https://" ->
  location (snd (acceptNavigationRequest (sch ++ a) t))
  = location (exec (load_page a) t) /\
  virtual_url (snd (acceptNavigationRequest (sch ++ a) t))
  = virtual_url (exec (load_page a) t).
Proof.
  intros Hv Hsch.
  destruct (validated_core _ Hv) as (g & Hg & Es & El).
  rewrite (@hook_on_link sch a g t Hsch Hv Hg El).
  rewrite load_page_valid; rewrite Es; auto using grammar_validates.
Qed.

Lemma link_and_address_bar_agree_witness :
  location (snd (acceptNavigationRequest (lit "http://" ++ lit "shop.example.co.uk/a_b/") new_tab))
  = location (exec (load_page (lit "shop.example.co.uk/a_b/")) new_tab).
Proof.
  exact (proj1 (@link_and_address_bar_agree (lit "shop.example.co.uk/a_b/")
                  (lit "http://") new_tab eq_refl (or_introl eq_refl))).
Defined.

End Composition.

(** ** The tabs of the window *)

Module WindowFacts.

Lemma removeTab_inside (index : Z) (ts : Tabs) :
  (0 <= index < Z.of_nat (List.length ts))%Z ->
  removeTab index ts
  = firstn (Z.to_nat index) ts ++ skipn (S (Z.to_nat index)) ts.
Proof.
  intros [H0 H1]; unfold removeTab.
  apply Z.leb_le in H0; apply Z.ltb_lt in H1; now rewrite H0, H1.
Qed.

Lemma removeTab_outside (index : Z) (ts : Tabs) :
  (index < 0 \/ Z.of_nat (List.length ts) <= index)%Z ->
  removeTab index ts = ts.
Proof.
  intros H; unfold removeTab.
  destruct (0 <=? index)%Z eqn:E0; [|reflexivity].
  destruct (index <? Z.of_nat (List.length ts))%Z eqn:E1; [|reflexivity].
  apply Z.leb_le in E0; apply Z.ltb_lt in E1; lia.
Qed.

Lemma removeTab_length (index : Z) (ts : Tabs) :
  (0 <= index < Z.of_nat (List.length ts))%Z ->
  List.length (removeTab index ts) = List.length ts - 1.
Proof.
  intros H; rewrite removeTab_inside by assumption.
  rewrite length_app, length_firstn, length_skipn; lia.
Qed.

Lemma removeTab_Forall (P : BrowserTab -> Prop) (index : Z) (ts : Tabs) :
  Forall P ts -> Forall P (removeTab index ts).
Proof.
  intros H; unfold removeTab.
  destruct ((0 <=? index)%Z && (index <? Z.of_nat (List.length ts))%Z)%bool;
    [|assumption].
  rewrite <- (firstn_skipn (Z.to_nat index) ts) in H.
  apply Forall_app in H as [H1 H2].
  apply Forall_app; split; [assumption|].
  rewrite <- (firstn_skipn 1 (skipn (Z.to_nat index) ts)) in H2.
  apply Forall_app in H2 as [_ H2].
  now rewrite skipn_skipn in H2.
Qed.

Lemma close_tab_length (index : Z) (ts : Tabs) :
  1 <= List.length ts -> 1 <= List.length (close_tab index ts).
Proof.
  intros H; unfold close_tab.
  destruct (1 <? List.length ts) eqn:E; [|assumption].
  apply Nat.ltb_lt in E.
  destruct (Z_lt_dec index 0) as [Hn|Hn];
    [rewrite removeTab_outside; lia|].
  destruct (Z_le_dec (Z.of_nat (List.length ts)) index) as [Hb|Hb];
    [rewrite removeTab_outside; lia|].
  rewrite removeTab_length; lia.
Qed.

(** What holds of a new tab and is kept by the handlers of a tab holds of
    all tabs of the window after each event of the window. *)
Lemma window_handle_Forall (P : BrowserTab -> Prop) (e : WindowEvent)
      (ts : Tabs) :
  P (add_tab (Some START_PAGE)) ->
  (forall ev t, P t -> P (handle ev t)) ->
  Forall P ts -> Forall P (window_handle e ts).
Proof.
  intros Hnew Hstep H; destruct e as [|index|i ev]; simpl.
  - apply Forall_app; split; [assumption|now repeat constructor].
  - unfold close_tab; destruct (1 <? List.length ts); [|assumption].
    now apply removeTab_Forall.
  - destruct (nth_error ts i) as [t|] eqn:E; [|assumption].
    pose proof (proj1 (Forall_forall P ts) H t (nth_error_In _ _ E)) as Ht.
    rewrite <- (firstn_skipn i ts) in H.
    apply Forall_app in H as [H1 H2].
    apply Forall_app; split; [assumption|].
    constructor; [now apply Hstep|].
    rewrite <- (firstn_skipn 1 (skipn i ts)) in H2.
    apply Forall_app in H2 as [_ H2].
    now rewrite skipn_skipn in H2.
Qed.

Lemma window_handle_length (e : WindowEvent) (ts : Tabs) :
  1 <= List.length ts -> 1 <= List.length (window_handle e ts).
Proof.
  intros H; destruct e as [|index|i ev]; simpl.
  - unfold window_add_tab; rewrite length_app; simpl; lia.
  - now apply close_tab_length.
  - destruct (nth_error ts i) as [t|] eqn:E; [|assumption].
    rewrite length_app; simpl; lia.
Qed.

End WindowFacts.

Section Window.
Import WindowFacts.

(** X10: the window always has a tab.  It opens with one tab, [close_tab]
    removes nothing when only one is left, and every tab of the window is
    a tab that was opened on the start page and has handled events: its
    location is the start page, a URL under the base URL or an error
    document, whichever tabs were opened and closed in between. *)
Theorem window_keeps_a_tab (ts : Tabs) :
  window_reachable ts ->
  1 <= List.length ts /\ Forall reachable ts /\ Forall confined ts.
Proof.
  intros H.
  assert (Hnew : reachable (add_tab (Some START_PAGE)) /\
                 confined (add_tab (Some START_PAGE))).
  { split; [apply reach_open|].
    split; simpl; [now left|].
    repeat constructor; apply START_PAGE_under_host. }
  assert (Hstep : forall ev t, reachable t /\ confined t ->
                               reachable (handle ev t) /\
                               confined (handle ev t)).
  { intros ev t [Hr Hc]; split;
      [now apply reach_step|now apply confined_handle]. }
  assert (Hall : 1 <= List.length ts /\
                 Forall (fun t => reachable t /\ confined t) ts).
  { induction H as [|ts e _ [IHn IHa]].
    - split; [simpl; lia|now repeat constructor].
    - split; [now apply window_handle_length|].
      now apply window_handle_Forall. }
  destruct Hall as [Hn Ha]; split; [assumption|].
  rewrite Forall_forall in Ha.
  split; apply Forall_forall; intros t Ht; now apply Ha.
Qed.

Lemma window_keeps_a_tab_witness :
  let ts :=
    window_handle (TabCloseRequested 0)
      (window_handle (TabCloseRequested 0)
         (window_handle (TabEvent 1 (ReturnPressed (lit "example.com")))
            (window_handle NewTabClicked MiniBrowser_init))) in
  window_reachable ts /\ List.length ts = 1 /\ Forall confined ts.
Proof.
  intros ts.
  assert (R : window_reachable ts)
    by (repeat apply window_step; apply window_open).
  split; [exact R|].
  split; [reflexivity|exact (proj2 (proj2 (window_keeps_a_tab R)))].
Defined.

(** X11: with more than one tab and an index of the tab widget,
    [close_tab] removes the tab at that index and no other: the tabs
    before it keep their positions, the tabs behind it move up by one,
    and none of them changes. *)
Theorem close_tab_removes_that_tab (index : Z) (ts : Tabs) :
  1 < List.length ts ->
  (0 <= index < Z.of_nat (List.length ts))%Z ->
  List.length (close_tab index ts) = List.length ts - 1 /\
  (forall i, i < Z.to_nat index ->
             nth_error (close_tab index ts) i = nth_error ts i) /\
  (forall i, Z.to_nat index <= i ->
             nth_error (close_tab index ts) i = nth_error ts (S i)).
Proof.
  intros Hn Hi; unfold close_tab.
  apply Nat.ltb_lt in Hn; rewrite Hn.
  split; [now apply removeTab_length|].
  rewrite removeTab_inside by assumption.
  assert (Hl : List.length (firstn (Z.to_nat index) ts) = Z.to_nat index)
    by (rewrite length_firstn; lia).
  split; intros i Hlt.
  - rewrite nth_error_app1 by lia.
    rewrite nth_error_firstn.
    apply Nat.ltb_lt in Hlt; now rewrite Hlt.
  - rewrite nth_error_app2 by lia.
    rewrite nth_error_skipn, Hl; f_equal; lia.
Qed.

Lemma close_tab_removes_that_tab_witness :
  close_tab 1 [new_tab; add_tab (Some START_PAGE); new_tab]
  = [new_tab; new_tab] /\
  nth_error (close_tab 1 [new_tab; add_tab (Some START_PAGE); new_tab]) 1
  = nth_error [new_tab; add_tab (Some START_PAGE); new_tab] 2.
Proof.
  split; [reflexivity|].
  refine (proj2 (proj2 (@close_tab_removes_that_tab 1
                          [new_tab; add_tab (Some START_PAGE); new_tab]
                          _ _)) 1 _);
    simpl; lia.
Defined.

(** X13: [close_tab] leaves the tabs as they are exactly when only one
    tab is left (or none) or the index is no position of the tab widget. *)
Theorem close_tab_keeps_the_tabs (index : Z) (ts : Tabs) :
  close_tab index ts = ts <->
  (List.length ts <= 1 \/ (index < 0)%Z \/
   (Z.of_nat (List.length ts) <= index)%Z).
Proof.
  unfold close_tab; destruct (1 <? List.length ts) eqn:E.
  - apply Nat.ltb_lt in E; split.
    + intros H.
      destruct (Z_lt_dec index 0) as [Hn|Hn]; [auto|].
      destruct (Z_le_dec (Z.of_nat (List.length ts)) index) as [Hb|Hb];
        [auto|].
      apply (f_equal (@List.length BrowserTab)) in H.
      rewrite removeTab_length in H; lia.
    + intros [H|H]; [lia|now apply removeTab_outside].
  - apply Nat.ltb_ge in E; split; auto.
Qed.

Lemma close_tab_keeps_the_tabs_witness :
  close_tab 0 MiniBrowser_init = MiniBrowser_init /\
  close_tab 2 [new_tab; new_tab] = [new_tab; new_tab].
Proof.
  split.
  - apply (proj2 (close_tab_keeps_the_tabs 0 MiniBrowser_init)).
    left; simpl; lia.
  - apply (proj2 (close_tab_keeps_the_tabs 2 [new_tab; new_tab])).
    right; right; simpl; lia.
Defined.

End Window.

(** ** What the handlers call the engine with *)

Module KnownFacts.
Import ValidateFacts NavigationFacts LoadPageFacts CallerFacts.

Lemma known_add_call (t t' : BrowserTab) (c : Call) :
  location t' = location t -> pending t' = pending t ->
  calls t' = calls t ++ [c] -> call_known c -> known t -> known t'.
Proof.
  intros El Ep Ec Hc (Hl & Hcs & Hp); repeat split.
  - now rewrite El.
  - rewrite Ec; apply Forall_app; split; [assumption|now repeat constructor].
  - now rewrite Ep.
Qed.

Lemma known_show_custom_404 (message : str) (t : BrowserTab) :
  error_message message -> known t ->
  known (exec (show_custom_404 message) t).
Proof.
  intros Hm (_ & Hcs & Hp); repeat split.
  - now exists message.
  - apply Forall_app; split; [assumption|].
    repeat constructor; now exists message.
  - assumption.
Qed.

Lemma known_target (g : str) (t : BrowserTab) (tail : list Call) (l : str) :
  address_grammar g -> Forall call_known tail -> known t ->
  known (mkTab (Virtual_Address (fst (parse_input g)) (snd (parse_input g)))
               (Remote (Rewritten_Target (fst (parse_input g))
                                         (snd (parse_input g))))
               l (pending t)
               (calls t ++
                SetVirtualUrl (Virtual_Address (fst (parse_input g))
                                               (snd (parse_input g)))
                :: SetUrl (Rewritten_Target (fst (parse_input g))
                                            (snd (parse_input g)))
                :: tail)).
Proof.
  intros Hg Ht (_ & Hcs & Hp); repeat split.
  - apply Rewritten_Target_under_host.
  - apply Forall_app; split; [assumption|].
    constructor; [exact I|].
    constructor; [|assumption].
    right; now exists g.
  - assumption.
Qed.

Lemma known_acceptNavigationRequest (url : str) (t : BrowserTab) :
  known t ->
  known (let (accepted, t') := acceptNavigationRequest url t in
         if accepted then engine_load url t' else t').
Proof.
  intros Ht; unfold acceptNavigationRequest.
  destruct (startswith GITHUB_BASE url) eqn:Eh.
  - destruct Ht as (_ & Hc & Hp); repeat split; assumption.
  - destruct (re_match navigation_pattern url) as [m|] eqn:Em; [|exact Ht].
    destruct (group m 1) as [u|] eqn:Eu; [|exact Ht].
    destruct (matched (validate_input u)) eqn:Ev; [|exact Ht].
    rewrite acceptNavigationRequest_redirect.
    apply (@known_target u t [] (tab_text t));
      [exact (linked_text_grammar _ Em Eu Ev)|constructor|exact Ht].
Qed.

Lemma known_load_page (text : str) (t : BrowserTab) :
  known t -> known (exec (load_page text) t).
Proof.
  intros Ht.
  destruct (matched (validate_input (strip_ws text))) eqn:Ev.
  - rewrite load_page_valid by assumption.
    apply (@known_target (strip_ws text) t
             [SetTabText (fst (parse_input (strip_ws text)))]
             (fst (parse_input (strip_ws text))));
      [now apply submitted_text_grammar|now repeat constructor|exact Ht].
  - destruct (existsb (str_eqb (lower (strip_ws text)))
                [lit "start"; lit "websites/start"]) eqn:Et.
    + apply start_token_test in Et; rewrite load_page_start by assumption.
      destruct Ht as (_ & Hc & Hp); split; [reflexivity|split].
      * apply Forall_app; split; [assumption|].
        repeat constructor; now left.
      * assumption.
    + rewrite load_page_invalid; auto.
      * apply (@known_show_custom_404 (lit "Invalid domain format") t);
          [right; right; reflexivity|exact Ht].
      * intros Hs; apply start_token_test in Hs; congruence.
Qed.

Lemma known_handle (ev : Event) (t : BrowserTab) :
  known t -> known (handle ev t).
Proof.
  intros Ht; destruct ev as [url|text|title|url|success|value]; simpl.
  - now apply known_acceptNavigationRequest.
  - now apply known_load_page.
  - unfold update_tab_title.
    destruct (nonempty title && nonempty (strip_ws title));
      eapply known_add_call with (t := t);
      solve [reflexivity | exact I | exact Ht].
  - unfold sync_virtual_url.
    destruct (startswith GITHUB_BASE url); [|exact Ht].
    eapply known_add_call with (t := t);
      [reflexivity|reflexivity|reflexivity|exact I|exact Ht].
  - unfold check_load_success; destruct success; simpl negb; cbv iota.
    + destruct Ht as (Hl & Hc & Hp); split; [exact Hl|split].
      * apply Forall_app; split; [assumption|now repeat constructor].
      * apply Forall_app; split; [assumption|now repeat constructor].
    + apply known_show_custom_404; [now left|exact Ht].
  - destruct Ht as (Hl & Hc & Hp).
    destruct (pending t) as [|[script cb] rest] eqn:Ep;
      [repeat split; try assumption; rewrite Ep; constructor|].
    apply Forall_cons_iff in Hp as [Hs Hp].
    assert (Hk : known (mkTab (virtual_url t) (location t) (tab_text t)
                              rest (calls t)))
      by (repeat split; assumption).
    destruct cb; unfold invoke, check_title_for_404.
    destruct value as [title|]; [|exact Hk].
    destruct (nonempty title && contains (lit "404") title); [|exact Hk].
    apply known_show_custom_404; [right; left; reflexivity|exact Hk].
Qed.

Lemma label_of_a (n : nat) : label_ok (repeat "a"%char (S n)).
Proof.
  split; [discriminate|].
  induction n as [|n IH]; [reflexivity|].
  change (repeat "a"%char (S (S n))) with ("a"%char :: repeat "a"%char (S n)).
  cbn [forallb]; rewrite IH; reflexivity.
Qed.

End KnownFacts.

Section Engine.
Import ValidateFacts LoadPageFacts GrammarParse CallerFacts KnownFacts.

(** X14: in every state a tab can reach, the location is never blank:
    it is a URL under the base URL or one of the three error documents
    ([Page failed to load], [Page not found], [Invalid domain format]);
    every [setUrl] of the handlers has the start page or the rewritten
    target of a text of the grammar as its argument, every [setHtml] one
    of the three error documents, and the only script ever run, or still
    awaited, is [document.title] with [check_title_for_404] as its
    callback. *)
Theorem reachable_known (t : BrowserTab) :
  reachable t ->
  location_known (location t) /\ Forall call_known (calls t) /\
  Forall (eq title_script) (pending t).
Proof.
  induction 1 as [|t ev _ IH].
  - split; [reflexivity|split].
    + repeat constructor; now left.
    + constructor.
  - now apply known_handle.
Qed.

Lemma reachable_known_witness :
  let t :=
    handle (LoadFinished true)
      (handle (JavaScriptResult (Some (lit "Error 404")))
         (handle (LoadFinished true)
            (handle (ReturnPressed (lit "no address"))
               (handle (NavigationRequest (lit "http://example.org/a"))
                  (add_tab (Some START_PAGE)))))) in
  reachable t /\
  pending t = [title_script] /\
  location_known (location t) /\ Forall call_known (calls t) /\
  Forall (eq title_script) (pending t).
Proof.
  intros t.
  assert (R : reachable t) by (repeat apply reach_step; apply reach_open).
  split; [exact R|].
  split; [reflexivity|exact (reachable_known R)].
Defined.

(** X15: the start page has a virtual address too.  Submitting a start
    token loads the start page and leaves the virtual address as it was;
    the [urlChanged] signal for the start page then makes
    [sync_virtual_url] set it to [start/index], and that text, submitted
    from the address bar, is no start token and no accepted address: it
    brings the [Invalid domain format] document. *)
Theorem start_page_virtual_address (text : str) (t : BrowserTab) :
  is_start_token (strip_ws text) ->
  let t0 := exec (load_page text) t in
  let t1 := handle (UrlChanged START_PAGE) t0 in
  location t0 = Remote START_PAGE /\
  virtual_url t0 = virtual_url t /\
  virtual_url t1 = lit "start/index" /\
  exec (load_page (virtual_url t1)) t1
  = showing_error (lit "Invalid domain format") t1.
Proof.
  intros Hs; cbv zeta; rewrite load_page_start by assumption.
  set (t0 := exec (setUrl START_PAGE) t).
  assert (E1 : virtual_url (handle (UrlChanged START_PAGE) t0)
               = lit "start/index") by reflexivity.
  split; [reflexivity|].
  split; [reflexivity|].
  split; [exact E1|].
  rewrite E1; apply load_page_invalid.
  - intros [E|E]; discriminate E.
  - reflexivity.
Qed.

Lemma start_page_virtual_address_witness :
  virtual_url (handle (UrlChanged START_PAGE)
                 (exec (load_page (lit " Start ")) new_tab))
  = lit "start/index".
Proof.
  refine (proj1 (proj2 (proj2 (@start_page_virtual_address (lit " Start ")
                                 new_tab _)))).
  left; reflexivity.
Defined.

(** X16: [load_page] labels the tab with the whole domain: different from
    [update_tab_title], which cuts a title after 40 characters, it does
    not shorten it, so that the label of a tab can be longer than any
    given length. *)
Theorem tab_label_of_submission_unbounded (n : nat) (t : BrowserTab) :
  exists text,
    matched (validate_input (strip_ws text)) = true /\
    tab_text (exec (load_page text) t) = fst (parse_input (strip_ws text)) /\
    n < List.length (tab_text (exec (load_page text) t)).
Proof.
  set (labels := [repeat "a"%char (S n)]).
  assert (Hne : labels <> []) by discriminate.
  assert (Hls : Forall label_ok labels)
    by (repeat constructor; apply label_of_a).
  assert (Htld : tld_ok (lit "com")) by (left; reflexivity).
  assert (Hpath : path_ok []) by (left; reflexivity).
  assert (Hsch : scheme_ok (lit "")) by (left; reflexivity).
  set (g := lit "" ++ hostname labels ++ lit "com" ++ []).
  assert (Hg : address_grammar g)
    by (exists (lit ""), labels, (lit "com"), []; repeat split; assumption).
  exists g.
  rewrite load_page_valid; rewrite (strip_ws_grammar Hg);
    [|now apply grammar_validates..].
  split; [now apply grammar_validates|].
  split; [reflexivity|].
  unfold g; rewrite (grammar_parse Hsch Hne Hls Htld Hpath).
  cbn [submitted tab_text fst].
  unfold labels, hostname; cbn [map List.concat].
  rewrite !length_app, repeat_length; simpl; lia.
Qed.

End Engine.

Section SyncShape.
Import ParseFacts.

(** X17: whatever the URL of the [urlChanged] signal, [sync_virtual_url]
    leaves the location, the label of the tab and the awaited scripts as
    they are; for a URL under the base URL, with anything whatsoever
    behind it, it makes one assignment to the virtual address, and the
    virtual address then neither begins nor ends with a slash. *)
Theorem sync_virtual_url_shape (url : str) (t : BrowserTab) :
  let t' := exec (sync_virtual_url url) t in
  location t' = location t /\ tab_text t' = tab_text t /\
  pending t' = pending t /\
  (startswith GITHUB_BASE url = true ->
   no_edge_slash (virtual_url t') /\
   calls t' = calls t ++ [SetVirtualUrl (virtual_url t')]).
Proof.
  cbv zeta; unfold sync_virtual_url.
  destruct (startswith GITHUB_BASE url).
  - split; [reflexivity|].
    split; [reflexivity|].
    split; [reflexivity|].
    intros _; split; [|reflexivity].
    cbn [exec set_virtual_url snd virtual_url].
    destruct (strip_slash_stripped
                (replace (lit ".html") (lit "")
                   (replace GITHUB_BASE (lit "") url)))
      as (l & r & _ & _ & _ & H); exact H.
  - repeat split; discriminate.
Qed.

Lemma sync_virtual_url_shape_witness :
  no_edge_slash
    (virtual_url
       (exec (sync_virtual_url (GITHUB_BASE ++ lit "//a b/?x=.html//"))
             new_tab)).
Proof.
  exact (proj1 (proj2 (proj2 (proj2
           (sync_virtual_url_shape (GITHUB_BASE ++ lit "//a b/?x=.html//")
              new_tab))) eq_refl)).
Defined.

End SyncShape.
